(** * docpub: the retrying, queue-limited wrapper around the Zendesk client

    A shallow embedding of [ZendeskClientWrapper] (the wrapper class that
    promisifies the node-zendesk client, retries failed requests and limits
    the number of concurrent connections) together with the properties its
    specification states about it.

    Layout:
    - [Js]: the fragment of JavaScript values the wrapper manipulates
      (truthiness, [ToNumber], [ToString], property bags);
    - [Wrapper]: the methods of the class, one definition per method;
    - [Request]: one dispatched request followed from its first transport
      call to the settlement of its promise;
    - [Pool]: the request queue shared by all dispatched requests, as a
      transition system;
    - the theorems, one per specified property. *)

From Stdlib Require Import ZArith Lia Bool List.
From Stdlib Require Import Strings.String Strings.Ascii.
From stdpp Require Import base option list gmap strings.

Local Open Scope string_scope.
Local Open Scope Z_scope.

(** ** JavaScript values *)

Module Js.

(** Primitive values. Numbers are the integers the wrapper computes with
    (status codes, seconds, milliseconds, all far below 2^53) plus [NaN]. *)
Inductive value : Type :=
| VUndefined
| VNull
| VBool (b : bool)
| VNum (n : Z)
| VNaN
| VStr (s : string).

Definition value_eqb (a b : value) : bool :=
  match a, b with
  | VUndefined, VUndefined | VNull, VNull | VNaN, VNaN => true
  | VBool x, VBool y => Bool.eqb x y
  | VNum x, VNum y => Z.eqb x y
  | VStr x, VStr y => String.eqb x y
  | _, _ => false
  end.

(** [ToBoolean]: what [if (v)], [!v], [v ? a : b] and [v || w] test. *)
Definition truthy (v : value) : bool :=
  match v with
  | VUndefined | VNull | VNaN => false
  | VBool b => b
  | VNum n => negb (n =? 0)
  | VStr s => negb (String.eqb s EmptyString)
  end.

Definition is_digit (c : ascii) : bool :=
  let n := nat_of_ascii c in (48 <=? n)%nat && (n <=? 57)%nat.

Definition digit_val (c : ascii) : Z := Z.of_nat (nat_of_ascii c) - 48.

Fixpoint all_digits (s : string) : bool :=
  match s with
  | EmptyString => true
  | String c s' => is_digit c && all_digits s'
  end.

Fixpoint digits_to_Z (acc : Z) (s : string) : Z :=
  match s with
  | EmptyString => acc
  | String c s' => digits_to_Z (10 * acc + digit_val c) s'
  end.

(** [ToNumber]. On strings it covers the empty string and unsigned decimal
    numerals, which is the form of a [Retry-After] delay in seconds; any
    other text is read as [NaN] (signs, fractions, exponents, hexadecimal
    and padding are outside the fragment). *)
Definition to_number (v : value) : value :=
  match v with
  | VUndefined => VNaN
  | VNull => VNum 0
  | VBool true => VNum 1
  | VBool false => VNum 0
  | VNum n => VNum n
  | VNaN => VNaN
  | VStr s => if all_digits s then VNum (digits_to_Z 0 s) else VNaN
  end.

(** [a * k] for a numeric literal [k]; the product is the code's as long
    as it does not exceed 2^53. *)
Definition mul (a : value) (k : Z) : value :=
  match to_number a with
  | VNum n => VNum (n * k)
  | _ => VNaN
  end.

(** [a >= k] for a numeric literal [k]; any comparison with [NaN] is false. *)
Definition ge (a : value) (k : Z) : bool :=
  match to_number a with
  | VNum n => k <=? n
  | _ => false
  end.

Definition digit_char (d : Z) : ascii := ascii_of_nat (Z.to_nat (48 + d)).

Fixpoint Z_digits (fuel : nat) (n : Z) (acc : string) : string :=
  match fuel with
  | O => acc
  | S fuel' =>
      let acc' := String (digit_char (n mod 10)) acc in
      if n / 10 =? 0 then acc' else Z_digits fuel' (n / 10) acc'
  end.

Definition Z_to_string (n : Z) : string :=
  if n <? 0 then "-" +:+ Z_digits (Z.to_nat (- n)) (- n) EmptyString
  else Z_digits (S (Z.to_nat n)) n EmptyString.

(** [ToString], as a template literal [`${v}`] or [v + "text"] applies it. *)
Definition to_string (v : value) : string :=
  match v with
  | VUndefined => "undefined"
  | VNull => "null"
  | VBool true => "true"
  | VBool false => "false"
  | VNum n => Z_to_string n
  | VNaN => "NaN"
  | VStr s => s
  end.

(** Objects used as property bags: error objects, headers, options. *)
Abbreviation obj := (gmap string value).

(** [o.k] / [o[k]]: a missing property reads as [undefined]. *)
Definition get (o : obj) (k : string) : value := default VUndefined (o !! k).

(** [o.k = v]. *)
Definition set (o : obj) (k : string) (v : value) : obj := <[k := v]> o.

(** Results of code that may throw. *)
Inductive thrown : Type :=
| TypeError (msg : string)
| SyntaxError (msg : string)
| Error (msg : string).

Inductive completion (A : Type) : Type :=
| Normal (a : A)
| Throw (e : thrown).
Arguments Normal {A} a.
Arguments Throw {A} e.

#[global] Instance completion_ret : MRet completion := @Normal.

#[global] Instance completion_bind : MBind completion :=
  fun A B (k : A -> completion B) (c : completion A) =>
    match c with
    | Normal a => k a
    | Throw e => Throw e
    end.

(** Values that [JSON.parse] builds. An object lists its properties; a
    property read takes the first entry for the key. *)
#[warnings="-register-all"]
Inductive json : Type :=
| JNull
| JBool (b : bool)
| JNum (n : Z)
| JStr (s : string)
| JArr (items : list json)
| JObj (props : list (string * json)).

Fixpoint assoc (k : string) (props : list (string * json)) : option json :=
  match props with
  | [] => None
  | (k', v) :: rest => if String.eqb k k' then Some v else assoc k rest
  end.

(** What a variable holding a parsed body, or a property of it, may be. *)
Inductive jvalue : Type :=
| JUndefined
| JVal (j : json).

(** [j[k]] for a key [k] that no prototype defines: a [TypeError] on
    [null], the property on an object, [undefined] otherwise. *)
Definition index (j : json) (k : string) : completion jvalue :=
  match j with
  | JNull => Throw (TypeError "Cannot read property of null")
  | JObj props =>
      Normal (match assoc k props with Some v => JVal v | None => JUndefined end)
  | _ => Normal JUndefined
  end.

End Js.

Import Js.

(** ** The wrapper class *)

Module Wrapper.

Definition MAX_RETRIES : Z := 6.
Definition RETRY_AFTER_DEFAULT : Z := 500.
Definition RETRY_AFTER_MAX : Z := 8000.
Definition MAX_CONCURRENT : nat := 29.

(** [Math.pow(2, n)] for an integer [n]: below zero the power is a fraction
    in (0,1), which [Math.max(_, 1)] replaces by 1, as it does the 0 that
    [Z.pow] returns there. *)
Definition _calcRetryAfter (retryNumber : Z) : Z :=
  let multiplier := Z.max (2 ^ retryNumber) 1 in
  Z.min (RETRY_AFTER_DEFAULT * multiplier) RETRY_AFTER_MAX.

(** *** [_createPromiseRequest]: the completion callback

    The arrow function pushed onto [args]. [retries] is the counter the
    closure captures; the function returns what the callback does together
    with the counter it leaves behind. The second argument of the callback
    ([statusCode]) is never read and is left out. *)
Section Dispatch.
Context {R : Type}.

Inductive action : Type :=
| Resolve (result : R)              (* resolve(result) *)
| Retry (retryAfter : value)        (* setTimeout(call again, retryAfter) *)
| Reject (err : obj).               (* reject(err) *)

Definition callback (retries : Z) (err : option obj) (result : R)
  : action * Z :=
  match err with
  | None => (Resolve result, retries)
  | Some e =>
      if (truthy (get e "retryAfter") || ge (get e "statusCode") 500)
         && (0 <? retries)
      then
        let retryAfter :=
          if truthy (get e "retryAfter")
          then mul (get e "retryAfter") 1000
          else VNum (_calcRetryAfter (MAX_RETRIES - retries)) in
        (Retry retryAfter, retries - 1)
      else (Reject e, retries)
  end.
End Dispatch.
Arguments action R : clear implicits.

(** *** [_buildError] *)

(** The response object of the [request] module, as far as it is read. *)
Record http_response : Type := {
  statusCode : value;
  headers : option obj          (* [None]: no [headers] property *)
}.

(** [error] is [None] for the [null] that [request] passes after a completed
    exchange; [response] is [None] when [request] passes [undefined], as it
    does when the exchange itself failed. Reading a property of [undefined]
    throws. *)
Definition _buildError (error : option obj) (response : option http_response)
  : completion (option obj) :=
  error1 ←
    match error with
    | Some _ => Normal error
    | None =>
        match response with
        | None => Throw (TypeError "Cannot read property 'statusCode' of undefined")
        | Some r =>
            if ge (statusCode r) 400
            then Normal (Some (set ∅ "statusCode" (statusCode r)))
            else Normal error
        end
    end;
  match response with
  | None => Throw (TypeError "Cannot read property 'headers' of undefined")
  | Some r =>
      match headers r with
      | Some h =>
          if truthy (get h "retry-after")
          then Normal (Some (set (default ∅ error1) "retryAfter"
                                 (get h "retry-after")))
          else Normal error1
      | None => Normal error1
      end
  end.

(** *** [_buildAuthRequest] *)

Inductive read_stream : Type :=
| ReadStream (path : value).          (* fs.createReadStream(path) *)

Record form_data : Type := {
  inline : value;
  file : read_stream
}.

Record params : Type := {
  url : string;
  auth : obj;
  formData : option form_data
}.

(** [options] is the store behind [this._client.articles.options.get]. *)
Definition _buildAuthRequest (options : obj) (endpoint : string) : params :=
  let url := get options "remoteUri" in
  let user := get options "username" in
  let password := get options "password" in
  let token := get options "token" in
  let useOAuth := get options "oauth" in
  {| url := to_string url +:+ endpoint;
     auth :=
       if truthy useOAuth then set ∅ "bearer" token
       else if truthy password then set (set ∅ "user" user) "pass" password
       else set (set ∅ "user" (VStr (to_string user +:+ "/token")))
                "pass" token;
     formData := None |}.

(** *** [_createAttachment] *)

(** Modelled from the spec: [./constants] is not among the sources; the
    specification gives the key of the attachment record in the response
    body as [article_attachment]. *)
Definition ARTICLE_ATTACHMENT : string := "article_attachment".

Section Attachment.
(** [JSON.parse], which throws a [SyntaxError] on text that is not JSON. *)
Variable JSON_parse : string -> completion json.

(** The request handed to [request.post]. *)
Definition _createAttachment_params
    (options : obj) (articleId resourcePath : value) : params :=
  let endpoint := "/articles/" +:+ to_string articleId +:+ "/attachments.json" in
  let params := _buildAuthRequest options endpoint in
  {| url := url params;
     auth := auth params;
     formData := Some {| inline := VStr "true";
                         file := ReadStream resourcePath |} |}.

(** The function given to [request.post]: from what [request] reports,
    the three arguments [callback] is invoked with, or the exception that
    escapes before [callback] is reached. [result] is [None] when
    [request] passes no body. *)
Definition _createAttachment_done
    (error : option obj) (response : option http_response) (result : option string)
  : completion (option obj * option http_response * jvalue) :=
  result1 ←
    match result with
    | Some text =>
        if truthy (VStr text)
        then parsed ← JSON_parse text; index parsed ARTICLE_ATTACHMENT
        else Normal (JVal JNull)
    | None => Normal (JVal JNull)
    end;
  error1 ← _buildError error response;
  Normal (error1, response, result1).
End Attachment.

(** *** The constructor *)

(** What [client[property]] holds, as far as [_wrapPrototypeMethods] looks:
    for an object, the properties a [for-in] over its prototype visits, each
    with whether its value is a function. *)
Inductive resource : Type :=
| Nullish                                   (* undefined or null *)
| Resource (prototype : list (string * bool)).

(** The client: its own properties. *)
Abbreviation client := (gmap string resource).

(** A wrapped operation: either built by [_createMethod] for a method of a
    resource of the client, or the attachment upload written by hand. *)
Inductive operation : Type :=
| Native (property method : string)
| CreateAttachment.

(** [this[property]] for the wrapped resources: method name to operation. *)
Abbreviation surfaces := (gmap string (gmap string operation)).

Definition endpoints : list string :=
  ["articles"; "articleattachments"; "sections"; "accesspolicies";
   "categories"; "translations"].

Definition _createMethod (property : string)
    (surface : gmap string operation) (method : string)
  : gmap string operation :=
  <[method := Native property method]> surface.

Definition _wrapPrototypeMethods (c : client) (this : surfaces)
    (property : string) : completion surfaces :=
  match c !! property with
  | None => Normal this
  | Some Nullish =>
      Throw (TypeError "Cannot convert undefined or null to object")
  | Some (Resource prototype) =>
      Normal (<[property :=
                 fold_left
                   (fun surface '(method, is_function) =>
                      if is_function : bool
                      then _createMethod property surface method
                      else surface)
                   prototype ∅]> this)
  end.

Record wrapper : Type := {
  _client : client;
  wrapped : surfaces
}.

(** [new ZendeskClientWrapper(client)]; [None] is a falsy argument. *)
Definition constructor (c : option client) : completion wrapper :=
  match c with
  | None => Throw (Error "No ZenDesk client to wrap provided!")
  | Some c =>
      this ←
        fold_left
          (fun acc endpoint =>
             this ← acc; _wrapPrototypeMethods c this endpoint)
          endpoints (Normal ∅);
      match this !! "articleattachments" with
      | None => Throw (TypeError "Cannot set property 'create' of undefined")
      | Some surface =>
          Normal {| _client := c;
                    wrapped := <["articleattachments" :=
                                  <["create" := CreateAttachment]> surface]> this |}
      end
  end.

(** The header value that [_buildError] tests and attaches, read as the
    source reads it: [response.headers && response.headers['retry-after']]. *)
Definition retry_after_header (r : http_response) : value :=
  match headers r with
  | Some h => get h "retry-after"
  | None => VUndefined
  end.

(** *** Sample inputs *)

(** A rate-limited response: status 429 with [Retry-After: 2]. *)
Definition too_many_requests : http_response :=
  {| statusCode := VNum 429;
     headers := Some {[ "retry-after" := VStr "2" ]} |}.

(** What [request] reports when the connection is refused: an error object
    and neither response nor body. *)
Definition connection_refused : obj :=
  {[ "code" := VStr "ECONNREFUSED" ]}.

(** Options with OAuth switched on and a password present as well; with a
    password only; with neither. *)
Definition options_oauth : obj :=
  {[ "remoteUri" := VStr "https://help.example.com/api/v2/help_center";
     "username" := VStr "ann";
     "password" := VStr "secret";
     "token" := VStr "tok";
     "oauth" := VBool true ]}.

Definition options_password : obj :=
  {[ "remoteUri" := VStr "https://help.example.com/api/v2/help_center";
     "username" := VStr "ann";
     "password" := VStr "secret";
     "token" := VStr "tok" ]}.

Definition options_token : obj :=
  {[ "remoteUri" := VStr "https://help.example.com/api/v2/help_center";
     "username" := VStr "ann";
     "token" := VStr "tok" ]}.

Definition quote : string := String (ascii_of_nat 34) EmptyString.

(** A body whose only property, [article_attachment], is an object with
    [id] 7, and a parser that knows this body. *)
Definition sample_body : string :=
  "{" +:+ quote +:+ "article_attachment" +:+ quote +:+ ":{"
      +:+ quote +:+ "id" +:+ quote +:+ ":7}}".

Definition sample_parse (text : string) : completion json :=
  if String.eqb text sample_body
  then Normal (JObj [("article_attachment", JObj [("id", JNum 7)])])
  else Throw (SyntaxError "Unexpected token").

(** A client with the attachment resource, and one without it. *)
Definition client_full : client :=
  {[ "articles" := Resource [("list", true); ("create", true)];
     "articleattachments" := Resource [("list", true); ("jsonAPINames", false)] ]}.

Definition client_bare : client :=
  {[ "articles" := Resource [("list", true); ("create", true)] ]}.

(** *** What one upload attempt does

    The function given to [request.post] followed by the completion
    callback it invokes: the action taken for what [request] reports, with
    the counter left behind, or the exception that escapes. *)
Definition upload_attempt (JSON_parse : string -> completion json)
    (retries : Z) (error : option obj) (response : option http_response)
    (result : option string) : completion (action jvalue * Z) :=
  '(error1, _, result1) ← _createAttachment_done JSON_parse error response result;
  Normal (callback retries error1 result1).

(** *** Calling a wrapped operation *)

(** The things that travel through [args]. *)
Inductive jsarg : Type :=
| Val (v : value)                        (* an argument of the caller *)
| ResourceOf (property : string)         (* client[property] *)
| MethodOf (property method : string)    (* client[property][method] *)
| This                                   (* the wrapper itself *)
| CreateAttachmentFn                     (* this._createAttachment *)
| Callback.                              (* the completion callback *)

(** The arguments with which a wrapped operation calls
    [_createPromiseRequest]: the closure of [_createMethod] puts the method
    and then its parent object in front of the caller's arguments; the
    closure written by hand passes its two named parameters. *)
Definition invoke (op : operation) (args : list jsarg) : list jsarg :=
  match op with
  | Native property method =>
      let args := ([MethodOf property method] ++ args)%list in
      ([ResourceOf property] ++ args)%list
  | CreateAttachment =>
      [This; CreateAttachmentFn;
       nth 0 args (Val VUndefined); nth 1 args (Val VUndefined)]
  end.

(** [Array.prototype.shift]. *)
Definition shift {A : Type} (l : list A) : option A * list A :=
  match l with
  | [] => (None, [])
  | x :: rest => (Some x, rest)
  end.

(** [method.apply(client, args)], as [_createPromiseRequest] arrives at. *)
Record physical_call : Type := {
  receiver : option jsarg;
  callee : option jsarg;
  passed : list jsarg
}.

Definition _createPromiseRequest_call (args : list jsarg) : physical_call :=
  let '(client, args) := shift args in
  let '(method, args) := shift args in
  {| receiver := client; callee := method;
     passed := (args ++ [Callback])%list |}.

(** The surface that the loop of [_wrapPrototypeMethods] fills. *)
Definition wrapped_methods (property : string)
    (prototype : list (string * bool)) : gmap string operation :=
  fold_left
    (fun surface '(method, is_function) =>
       if is_function : bool
       then _createMethod property surface method
       else surface)
    prototype ∅.

(** A client with a resource outside the list of endpoints, and with a
    property whose name the attachment surface also gets by hand. *)
Definition client_users : client :=
  {[ "users" := Resource [("list", true)];
     "articleattachments" := Resource [("create", true); ("list", true)] ]}.

End Wrapper.

Import Wrapper.

(** ** One dispatched request

    What the promise built by [_createPromiseRequest] does once the queue
    has called it: the transport method is applied, its completion runs
    [callback], and a retry applies the same method to the same arguments
    again when its timer fires. *)

Module Request.

Section Run.
Context {R : Type}.

(** [transport k] is what the [k]-th application of the method (counted
    from 0) passes to the callback: the error, if any, and the result. *)
Variable transport : nat -> option obj * R.

Inductive settlement : Type :=
| Resolved (result : R)
| Rejected (err : obj).

(** What a caller can observe of one request: how often the transport was
    called, the delays of the timers set in between, and how the promise
    settled. *)
Record history : Type := {
  calls : nat;
  timers : list value;
  outcome : settlement
}.

Fixpoint attempt (fuel : nat) (retries : Z) (k : nat) (delays : list value)
  : option history :=
  match fuel with
  | O => None
  | S fuel' =>
      let '(err, result) := transport k in
      match callback retries err result with
      | (Resolve r, _) =>
          Some {| calls := S k; timers := delays; outcome := Resolved r |}
      | (Reject e, _) =>
          Some {| calls := S k; timers := delays; outcome := Rejected e |}
      | (Retry retryAfter, retries') =>
          attempt fuel' retries' (S k) (delays ++ [retryAfter])
      end
  end.

(** [let retries = MAX_RETRIES] and the first application of the method. *)
Definition promise : option history :=
  attempt (S (Z.to_nat MAX_RETRIES)) MAX_RETRIES 0 [].

End Run.

Arguments settlement R : clear implicits.
Arguments history R : clear implicits.

(** A call that fails with status 503 and no [retryAfter]. *)
Definition fails_503 {R : Type} (o : option obj * R) : Prop :=
  exists e, o.1 = Some e
            /\ get e "statusCode" = VNum 503
            /\ truthy (get e "retryAfter") = false.

(** Sample transports: a server that is always unavailable (each error
    object says which call it answers), and one that does not know the
    resource. *)
Definition unavailable (k : nat) : option obj * unit :=
  (Some {[ "statusCode" := VNum 503;
           "call" := VNum (Z.of_nat k) ]}, tt).

Definition not_found (k : nat) : option obj * unit :=
  (Some {[ "statusCode" := VNum 404; "call" := VNum (Z.of_nat k) ]}, tt).



(** The test that [callback] applies to what a call reports: a failure
    with a truthy [retryAfter] or a status of at least 500. *)
Definition retryable {R : Type} (o : option obj * R) : bool :=
  match o.1 with
  | Some e => truthy (get e "retryAfter") || ge (get e "statusCode") 500
  | None => false
  end.

(** The delay [callback] computes for the retry numbered [retryNumber]
    (from 0) after the failure [o]. *)
Definition delay {R : Type} (retryNumber : Z) (o : option obj * R) : value :=
  match o.1 with
  | Some e =>
      if truthy (get e "retryAfter")
      then mul (get e "retryAfter") 1000
      else VNum (_calcRetryAfter retryNumber)
  | None => VUndefined
  end.

(** How the promise settles on a call after which no retry follows. *)
Definition settles {R : Type} (o : option obj * R) : settlement R :=
  match o with
  | (None, result) => Resolved result
  | (Some e, _) => Rejected e
  end.

(** The time all timers of a request take together, in milliseconds; a
    delay that is not a number counts as 0. *)
Definition total_delay (delays : list value) : Z :=
  foldr (fun d total => match d with VNum n => n + total | _ => total end)
        0 delays.

(** A transport that is rate limited twice, then unavailable once, then
    answers. *)
Definition recovers (k : nat) : option obj * unit :=
  match k with
  | 0%nat | 1%nat => (Some {[ "statusCode" := VNum 429;
                              "retryAfter" := VStr "3" ]}, tt)
  | 2%nat => (Some {[ "statusCode" := VNum 503 ]}, tt)
  | _ => (None, tt)
  end.

End Request.

(** ** The request queue

    All requests of a wrapper go through [this._queue], created as
    [new Queue(MAX_CONCURRENT)]. *)

Module Pool.

Import Request.

Section Pool.
Context {R : Type}.

(** One request handed to [_createPromiseRequest]. *)
Record unit_state : Type := {
  started : bool;                   (* the queue has called [promise] *)
  retries : Z;                      (* the captured counter *)
  outstanding : nat;                (* transport calls not yet completed *)
  sleeping : list value;            (* retry timers not yet fired *)
  settled : option (settlement R);  (* the promise, once settled *)
  slot : bool                       (* counted in [pendingPromises] *)
}.

Record state : Type := {
  units : list unit_state;          (* by order of submission *)
  queue : list nat;                 (* waiting requests, oldest first *)
  pendingPromises : nat
}.

Definition initial : state :=
  {| units := []; queue := []; pendingPromises := 0 |}.

(** Modelled from the spec: the queue is the [promise-queue] package, which
    is not among the sources. The specification has it run at most
    [MAX_CONCURRENT] tasks at once, keep the others waiting in order of
    admission, and hold a task's slot until its future settles.
    [_dequeue] starts the oldest waiting request if a slot is free; starting
    it runs the promise executor, which applies the transport method. *)
Definition _dequeue (s : state) : state :=
  if (MAX_CONCURRENT <=? pendingPromises s)%nat then s
  else
    match queue s with
    | [] => s
    | id :: rest =>
        match units s !! id with
        | None => s
        | Some u =>
            {| units := <[id := {| started := true;
                                   retries := retries u;
                                   outstanding := S (outstanding u);
                                   sleeping := sleeping u;
                                   settled := settled u;
                                   slot := true |}]> (units s);
               queue := rest;
               pendingPromises := S (pendingPromises s) |}
        end
    end.

(** [_createPromiseRequest] for a fresh request: the counter starts at
    [MAX_RETRIES] and [this._queue.add(promise)] puts the request last in
    the queue and calls [_dequeue]. *)
Definition add (s : state) : state :=
  _dequeue
    {| units := units s ++ [{| started := false;
                               retries := MAX_RETRIES;
                               outstanding := 0;
                               sleeping := [];
                               settled := None;
                               slot := false |}];
       queue := queue s ++ [length (units s)];
       pendingPromises := pendingPromises s |}.

(** A promise settles once: later calls of [resolve] or [reject] are
    ignored. *)
Definition settle (old : option (settlement R)) (new : settlement R)
  : option (settlement R) :=
  match old with
  | Some _ => old
  | None => Some new
  end.

(** The transport completes a call of request [id] and runs [callback]. *)
Definition complete (s : state) (id : nat) (err : option obj) (result : R)
  : option state :=
  match units s !! id with
  | Some u =>
      match outstanding u with
      | O => None
      | S o =>
          let u' :=
            match callback (retries u) err result with
            | (Resolve r, _) =>
                {| started := started u; retries := retries u;
                   outstanding := o; sleeping := sleeping u;
                   settled := settle (settled u) (Resolved r);
                   slot := slot u |}
            | (Reject e, _) =>
                {| started := started u; retries := retries u;
                   outstanding := o; sleeping := sleeping u;
                   settled := settle (settled u) (Rejected e);
                   slot := slot u |}
            | (Retry retryAfter, retries') =>
                {| started := started u; retries := retries';
                   outstanding := o; sleeping := sleeping u ++ [retryAfter];
                   settled := settled u;
                   slot := slot u |}
            end in
          Some {| units := <[id := u']> (units s);
                  queue := queue s;
                  pendingPromises := pendingPromises s |}
      end
  | None => None
  end.

(** A call of request [id] ends by an exception that is thrown before
    [callback] is reached, as happens in the function that
    [_createAttachment] gives to [request.post] when [JSON.parse] or
    [_buildError] throws: the call is over, and nothing else happens. *)
Definition escape (s : state) (id : nat) : option state :=
  match units s !! id with
  | Some u =>
      match outstanding u with
      | O => None
      | S o =>
          Some {| units := <[id := {| started := started u;
                                      retries := retries u;
                                      outstanding := o;
                                      sleeping := sleeping u;
                                      settled := settled u;
                                      slot := slot u |}]> (units s);
                  queue := queue s;
                  pendingPromises := pendingPromises s |}
      end
  | None => None
  end.

(** A retry timer of request [id] fires: the method is applied again. *)
Definition fire (s : state) (id : nat) : option state :=
  match units s !! id with
  | Some u =>
      match sleeping u with
      | [] => None
      | _ :: later =>
          Some {| units := <[id := {| started := started u;
                                      retries := retries u;
                                      outstanding := S (outstanding u);
                                      sleeping := later;
                                      settled := settled u;
                                      slot := slot u |}]> (units s);
                  queue := queue s;
                  pendingPromises := pendingPromises s |}
      end
  | None => None
  end.

(** Modelled from the spec: the queue's reaction to the settlement of a
    task (also part of [promise-queue]): the slot is given back and the
    next waiting request, if any, is started. *)
Definition release (s : state) (id : nat) : option state :=
  match units s !! id with
  | Some u =>
      match settled u, slot u with
      | Some _, true =>
          Some (_dequeue
                  {| units := <[id := {| started := started u;
                                         retries := retries u;
                                         outstanding := outstanding u;
                                         sleeping := sleeping u;
                                         settled := settled u;
                                         slot := false |}]> (units s);
                     queue := queue s;
                     pendingPromises := pred (pendingPromises s) |})
      | _, _ => None
      end
  | None => None
  end.

Inductive event : Type :=
| Add
| Complete (id : nat) (err : option obj) (result : R)
| Escape (id : nat)
| Fire (id : nat)
| Release (id : nat).

Definition is_add (e : event) : bool :=
  match e with Add => true | _ => false end.

Definition is_escape (e : event) : bool :=
  match e with Escape _ => true | _ => false end.

Definition step (s : state) (e : event) : option state :=
  match e with
  | Add => Some (add s)
  | Complete id err result => complete s id err result
  | Escape id => escape s id
  | Fire id => fire s id
  | Release id => release s id
  end.

Fixpoint run (s : state) (es : list event) : option state :=
  match es with
  | [] => Some s
  | e :: es' =>
      match step s e with
      | Some s' => run s' es'
      | None => None
      end
  end.

(** The states the wrapper can be in. *)
Definition reachable (s : state) : Prop :=
  exists es, run initial es = Some s.

(** Transport calls under way, over all requests. *)
Definition in_flight (s : state) : nat :=
  sum_list_with outstanding (units s).

Definition all_settled (s : state) : Prop :=
  forall id u, units s !! id = Some u -> is_Some (settled u).

(** What is left to happen to a request, and to all of them. *)
Definition unit_work (u : unit_state) : nat :=
  3 * Z.to_nat (retries u) + 2 * length (sleeping u) + outstanding u
  + (if slot u then 1 else 0) + (if started u then 0 else 3).

Definition work (s : state) : nat := sum_list_with unit_work (units s).

(** What a request weighs in [pendingPromises]. *)
Definition holds_slot (u : unit_state) : nat := if slot u then 1 else 0.

(** The shapes a request takes: waiting in the queue; started and not yet
    settled, with at most one call under way or timer pending; settled,
    with nothing left under way. *)
Definition unit_ok (u : unit_state) : Prop :=
  match started u, settled u with
  | false, None => slot u = false /\ outstanding u = 0%nat /\ sleeping u = []
  | false, Some _ => False
  | true, None =>
      slot u = true /\ (outstanding u + length (sleeping u) <= 1)%nat
  | true, Some _ => outstanding u = 0%nat /\ sleeping u = []
  end.

(** A request is stuck when it was started and is not settled, and has
    neither a call under way nor a timer pending: nothing is left that
    could run its callback. *)
Definition stuck (u : unit_state) : Prop :=
  started u = true /\ settled u = None
  /\ outstanding u = 0%nat /\ sleeping u = [].

Definition all_live (s : state) : Prop :=
  forall id u, units s !! id = Some u -> ~ stuck u.

(** Every slot is held by a stuck request. *)
Definition jammed (s : state) : Prop :=
  pendingPromises s = MAX_CONCURRENT
  /\ forall id u, units s !! id = Some u ->
        settled u = None /\ outstanding u = 0%nat /\ sleeping u = [].

(** What holds of the queue between two calls of [_dequeue]... *)
Record consistent (s : state) : Prop := {
  cons_units : forall id u, units s !! id = Some u -> unit_ok u;
  cons_pending : pendingPromises s = sum_list_with holds_slot (units s);
  cons_bound : (pendingPromises s <= MAX_CONCURRENT)%nat;
  cons_queue : forall id,
    id ∈ queue s <-> exists u, units s !! id = Some u /\ started u = false;
  cons_nodup : NoDup (queue s)
}.

(** ... and after it: requests wait only while every slot is taken. *)
Record invariant (s : state) : Prop := {
  inv_consistent : consistent s;
  inv_full : queue s <> [] -> pendingPromises s = MAX_CONCURRENT
}.

End Pool.

Arguments unit_state R : clear implicits.
Arguments state R : clear implicits.
Arguments event R : clear implicits.

(** A sample run: two requests are submitted; the first fails with 503
    and is retried when its timer fires, the second succeeds and gives its
    slot back. *)
Definition sample_events : list (event unit) :=
  [Add; Add;
   Complete 0 (Some {[ "statusCode" := VNum 503 ]}) tt;
   Fire 0;
   Complete 1 None tt;
   Release 1].

Definition sample_state : state unit :=
  default initial (run initial sample_events).

(** An upload is submitted and the connection is refused: the completion
    of its call throws before the callback. *)
Definition refused_events : list (event unit) := [Add; Escape 0].

Definition refused_state : state unit :=
  default initial (run initial refused_events).

(** The same for 29 uploads, one after the other. *)
Definition jam_events : list (event unit) :=
  flat_map (fun id => [Add; Escape id]) (seq 0 29).

Definition jam_state : state unit :=
  default initial (run initial jam_events).

End Pool.

(** ** The pipeline entry point ([lib/zendesk-pipeline.js]) *)

Module Pipeline.

(** [_.defaults(object, source)]: every property of [source] is assigned
    to [object] where [object]'s property reads as [undefined] (for keys,
    like [path], that [Object.prototype] does not define). *)
Definition defaults (object source : obj) : obj :=
  map_fold
    (fun key v acc =>
       if value_eqb (get object key) VUndefined then set acc key v else acc)
    object source.

Section Constructor.
(** [process.cwd()], and [path.resolve] on a string. *)
Variable cwd : string.
Variable path_resolve : string -> string.

(** [new ZendeskPipeline(opts)]: the [_path] of the instance. [opts] is
    [None] for a missing or otherwise falsy argument. [path.resolve] throws
    a [TypeError] for an argument that is not a string. *)
Definition constructor (opts : option obj) : completion string :=
  let opts := defaults (default ∅ opts) {[ "path" := VStr cwd ]} in
  match get opts "path" with
  | VStr p => Normal (path_resolve p)
  | _ => Throw (TypeError "Path must be a string")
  end.

End Constructor.

(** A stand-in for [path.resolve] that keeps absolute paths and puts the
    working directory [/work] before the others. *)
Definition sample_resolve (p : string) : string :=
  match p with
  | String "/" _ => p
  | _ => "/work/" +:+ p
  end.

End Pipeline.

(** ** Theorems *)

(** C2: for every attempt index in [0,6) the backoff calculator returns
    min(500 * 2^attemptIndex, 8000) milliseconds, that is 500, 1000, 2000,
    4000, 8000 and 8000 for the indices 0 to 5; being a function of its
    argument alone it is deterministic. *)
Theorem calcRetryAfter_spec (attemptIndex : Z) :
  0 <= attemptIndex < 6 ->
  _calcRetryAfter attemptIndex = Z.min (500 * 2 ^ attemptIndex) 8000
  /\ map _calcRetryAfter [0; 1; 2; 3; 4; 5]
     = [500; 1000; 2000; 4000; 8000; 8000].
Proof.
  intros Hk. split; [| reflexivity].
  unfold _calcRetryAfter, RETRY_AFTER_DEFAULT, RETRY_AFTER_MAX.
  assert (1 <= 2 ^ attemptIndex)
    by (apply (Z.pow_le_mono_r 2 0 attemptIndex); lia).
  rewrite Z.max_l by lia. reflexivity.
Qed.

Lemma calcRetryAfter_spec_witness :
  0 <= 5 < 6 /\ _calcRetryAfter 5 = 8000.
Proof.
  split; [lia | exact (proj1 (calcRetryAfter_spec 5 ltac:(lia)))].
Defined.

(** *** The completion callback and a single request *)

Section CallbackFacts.
Context {R : Type}.
Implicit Types (e : obj) (result : R) (retries : Z).

(** A failure without hint and with a status of at least 500 is retried
    after the computed delay while retries are left. *)
Lemma callback_backoff e result retries :
  truthy (get e "retryAfter") = false ->
  ge (get e "statusCode") 500 = true ->
  0 < retries ->
  callback retries (Some e) result
  = (Retry (VNum (_calcRetryAfter (MAX_RETRIES - retries))), retries - 1).
Proof.
  intros Hhint Hge Hpos. unfold callback. rewrite Hhint, Hge.
  assert ((0 <? retries) = true) as -> by (apply Z.ltb_lt; lia).
  reflexivity.
Qed.

(** A failure with a hint is retried after the hint times 1000 while
    retries are left. *)
Lemma callback_hint e result retries :
  truthy (get e "retryAfter") = true ->
  0 < retries ->
  callback retries (Some e) result
  = (Retry (mul (get e "retryAfter") 1000), retries - 1).
Proof.
  intros Hhint Hpos. unfold callback. rewrite Hhint.
  assert ((0 <? retries) = true) as -> by (apply Z.ltb_lt; lia).
  reflexivity.
Qed.

(** Any other failure is passed to [reject] as it is. *)
Lemma callback_reject e result retries :
  (truthy (get e "retryAfter") = false /\ ge (get e "statusCode") 500 = false)
  \/ retries <= 0 ->
  callback retries (Some e) result = (Reject e, retries).
Proof.
  intros [[Hhint Hge] | Hout]; unfold callback.
  - rewrite Hhint, Hge. reflexivity.
  - assert ((0 <? retries) = false) as -> by (apply Z.ltb_ge; lia).
    rewrite andb_false_r. reflexivity.
Qed.

(** The callback never leaves the counter below zero, and a retry takes
    exactly one from a positive counter. *)
Lemma callback_retry_inv retries (err : option obj) result d retries' :
  callback retries err result = (Retry d, retries') ->
  0 < retries /\ retries' = retries - 1.
Proof.
  unfold callback. destruct err as [e|]; [| discriminate].
  destruct (0 <? retries) eqn:Hpos.
  - apply Z.ltb_lt in Hpos.
    destruct (truthy (get e "retryAfter") || ge (get e "statusCode") 500);
      simpl; intros [= <- <-]; lia.
  - rewrite andb_false_r. discriminate.
Qed.

End CallbackFacts.

Import Request.

(** C1: a request whose every transport call fails with status 503 and no
    retry-after hint is called again 6 times (7 calls in all), the i-th
    retry waiting [_calcRetryAfter i] milliseconds, i.e. MAX_RETRIES minus
    the retries then remaining; its promise is then rejected with the error
    of the last call itself. *)
Theorem promise_503_exhausts {R : Type} (transport : nat -> option obj * R) :
  (forall k, (k < 7)%nat -> fails_503 (transport k)) ->
  exists last result,
    transport 6%nat = (Some last, result)
    /\ promise transport
       = Some {| calls := 7;
                 timers := (fun i => VNum (_calcRetryAfter i))
                             <$> [0; 1; 2; 3; 4; 5];
                 outcome := Rejected last |}
    /\ (fun i => VNum (_calcRetryAfter i)) <$> [0; 1; 2; 3; 4; 5]
       = VNum <$> [500; 1000; 2000; 4000; 8000; 8000].
Proof.
  intros H.
  assert (forall k, (k < 7)%nat ->
            exists e result, transport k = (Some e, result)
              /\ truthy (get e "retryAfter") = false
              /\ ge (get e "statusCode") 500 = true) as H'.
  { intros k Hk. destruct (H k Hk) as (e & He & Hs & Hh).
    destruct (transport k) as [err result]; simpl in He; subst err.
    exists e, result. rewrite Hs. auto. }
  destruct (H' 0%nat ltac:(lia)) as (e0 & r0 & T0 & h0 & s0).
  destruct (H' 1%nat ltac:(lia)) as (e1 & r1 & T1 & h1 & s1).
  destruct (H' 2%nat ltac:(lia)) as (e2 & r2 & T2 & h2 & s2).
  destruct (H' 3%nat ltac:(lia)) as (e3 & r3 & T3 & h3 & s3).
  destruct (H' 4%nat ltac:(lia)) as (e4 & r4 & T4 & h4 & s4).
  destruct (H' 5%nat ltac:(lia)) as (e5 & r5 & T5 & h5 & s5).
  destruct (H' 6%nat ltac:(lia)) as (e6 & r6 & T6 & h6 & s6).
  exists e6, r6. split; [exact T6 |]. split; [| reflexivity].
  unfold promise. change (Z.to_nat MAX_RETRIES) with 6%nat.
  cbn [attempt]. rewrite T0, T1, T2, T3, T4, T5, T6.
  rewrite (callback_backoff e0), (callback_backoff e1), (callback_backoff e2),
    (callback_backoff e3), (callback_backoff e4), (callback_backoff e5)
    by (assumption || reflexivity).
  rewrite (callback_reject e6) by (right; unfold MAX_RETRIES; lia).
  reflexivity.
Qed.

Lemma promise_503_exhausts_witness :
  exists last result,
    unavailable 6%nat = (Some last, result)
    /\ promise unavailable
       = Some {| calls := 7;
                 timers := (fun i => VNum (_calcRetryAfter i))
                             <$> [0; 1; 2; 3; 4; 5];
                 outcome := Rejected last |}
    /\ (fun i => VNum (_calcRetryAfter i)) <$> [0; 1; 2; 3; 4; 5]
       = VNum <$> [500; 1000; 2000; 4000; 8000; 8000].
Proof.
  apply (promise_503_exhausts unavailable).
  intros k _. eexists. split; [reflexivity |]. split; reflexivity.
Defined.



(** C4: while retries are left, a failure is retried exactly when it has a
    [retryAfter] hint or a status of at least 500, and is otherwise passed
    to [reject] unchanged; so a request that fails with status 404 and no
    hint makes one transport call, sets no timer and rejects with that
    failure. *)
Theorem retryable_iff {R : Type} (e : obj) (result : R) (retries : Z) :
  0 < retries ->
  ((exists d, callback retries (Some e) result = (Retry d, retries - 1))
   <-> truthy (get e "retryAfter") = true \/ ge (get e "statusCode") 500 = true)
  /\ (callback retries (Some e) result = (Reject e, retries)
      <-> ~ (truthy (get e "retryAfter") = true
             \/ ge (get e "statusCode") 500 = true))
  /\ (forall n, get e "statusCode" = VNum n ->
        (ge (get e "statusCode") 500 = true <-> 500 <= n))
  /\ (forall transport : nat -> option obj * R,
        transport 0%nat = (Some e, result) ->
        get e "statusCode" = VNum 404 ->
        truthy (get e "retryAfter") = false ->
        promise transport
        = Some {| calls := 1; timers := []; outcome := Rejected e |}).
Proof.
  intros Hpos.
  assert ((0 <? retries) = true) as Hltb by (apply Z.ltb_lt; lia).
  split; [split | split; [split | split]].
  - intros [d Hcb]. unfold callback in Hcb. rewrite Hltb, andb_true_r in Hcb.
    destruct (truthy _); [by left |].
    destruct (ge _ _); [by right | discriminate].
  - intros Hret. unfold callback. rewrite Hltb, andb_true_r.
    destruct Hret as [-> | Hge]; [eauto |].
    rewrite Hge, orb_true_r. eauto.
  - intros Hcb [Hhint | Hge]; unfold callback in Hcb;
      rewrite Hltb, andb_true_r in Hcb.
    + rewrite Hhint in Hcb. discriminate.
    + rewrite Hge, orb_true_r in Hcb. discriminate.
  - intros Hno. apply callback_reject. left.
    destruct (truthy _); [tauto |]. destruct (ge _ _); tauto.
  - intros n Hn. split.
    + rewrite Hn. unfold ge. simpl. intros ?%Z.leb_le. done.
    + rewrite Hn. unfold ge. simpl. intros ?. by apply Z.leb_le.
  - intros transport Ht Hs Hh. unfold promise.
    change (Z.to_nat MAX_RETRIES) with 6%nat. cbn [attempt]. rewrite Ht.
    rewrite callback_reject; [done |]. left. by rewrite Hs.
Qed.

Lemma retryable_iff_witness :
  promise not_found
  = Some {| calls := 1; timers := [];
            outcome := Rejected {[ "statusCode" := VNum 404;
                                   "call" := VNum 0 ]} |}.
Proof.
  apply (proj2 (proj2 (proj2
    (retryable_iff
       {[ "statusCode" := VNum 404; "call" := VNum 0 ]} tt 6 ltac:(lia))))
    not_found); reflexivity.
Defined.

(** *** The error classifier *)

(** C5, as the code has it: for a response that is present, [_buildError]
    returns [null] when there is no error, the status is below 400 and no
    retry-after header is set; it makes a descriptor with the status when
    there is no error and the status is at least 400; and when the header
    is set it stores the header value itself (seconds, as received) under
    [retryAfter], in a new descriptor if there was none. The factor 1000 is
    applied by the completion callback when it sets the timer. *)
Theorem buildError_spec (error : option obj) (r : http_response) :
  (error = None -> ge (statusCode r) 400 = false ->
   truthy (retry_after_header r) = false ->
   _buildError error (Some r) = Normal None)
  /\ (error = None -> ge (statusCode r) 400 = true ->
      exists d, _buildError error (Some r) = Normal (Some d)
                /\ get d "statusCode" = statusCode r)
  /\ (truthy (retry_after_header r) = true ->
      exists d, _buildError error (Some r) = Normal (Some d)
                /\ get d "retryAfter" = retry_after_header r
                /\ forall retries, 0 < retries ->
                     callback retries (Some d) tt
                     = (Retry (mul (retry_after_header r) 1000), retries - 1))
  /\ (error = None -> ge (statusCode r) 400 = false ->
      truthy (retry_after_header r) = true ->
      _buildError error (Some r)
      = Normal (Some {[ "retryAfter" := retry_after_header r ]})).
Proof.
  unfold _buildError, retry_after_header.
  split; [| split; [| split]].
  - intros -> Hge Hh. simpl. rewrite Hge. simpl.
    destruct (headers r); [by rewrite Hh | done].
  - intros -> Hge. simpl. rewrite Hge. simpl.
    destruct (headers r) as [h|]; [destruct (truthy (get h "retry-after")) |];
      eexists; (split; [reflexivity |]); unfold get, set;
      by rewrite ?lookup_insert_ne, lookup_insert_eq by done.
  - intros Hh.
    assert (forall d : obj,
      get d "retryAfter" = match headers r with
                           | Some h => get h "retry-after"
                           | None => VUndefined
                           end ->
      forall retries, 0 < retries ->
        callback retries (Some d) ()
        = (Retry (mul match headers r with
                      | Some h => get h "retry-after"
                      | None => VUndefined
                      end 1000), retries - 1)) as Hcb.
    { intros d Hget retries Hpos.
      rewrite callback_hint by (by rewrite ?Hget). by rewrite Hget. }
    destruct (headers r) as [h|]; [| done].
    assert (forall pre : obj,
      get (set pre "retryAfter" (get h "retry-after")) "retryAfter"
      = get h "retry-after") as Hset.
    { intros pre. unfold get at 1, set. by rewrite lookup_insert_eq. }
    destruct error as [e|]; simpl; [| destruct (ge (statusCode r) 400); simpl];
      rewrite Hh; eexists; (split; [reflexivity |]);
      (split; [apply Hset | apply Hcb, Hset]).
  - intros -> Hge Hh. simpl. rewrite Hge. simpl.
    destruct (headers r) as [h|]; [| done]. rewrite Hh.
    unfold set. simpl. by rewrite insert_empty.
Qed.

Lemma buildError_spec_witness :
  _buildError None (Some {| statusCode := VNum 200;
                            headers := Some {[ "retry-after" := VStr "2" ]} |})
  = Normal (Some {[ "retryAfter" := VStr "2" ]}).
Proof.
  exact (proj2 (proj2 (proj2
    (buildError_spec None
       {| statusCode := VNum 200;
          headers := Some {[ "retry-after" := VStr "2" ]} |})))
    eq_refl eq_refl eq_refl).
Defined.

(** C5, as stated, fails: for a 429 response with [Retry-After: 2] the
    descriptor that [_buildError] returns holds the text ["2"], not the
    2000 that the header times 1000 is, and it has no other property than
    the status. *)
Lemma buildError_keeps_seconds :
  _buildError None (Some too_many_requests)
  = Normal (Some {[ "statusCode" := VNum 429; "retryAfter" := VStr "2" ]})
  /\ mul (retry_after_header too_many_requests) 1000 = VNum 2000
  /\ ~ (exists d, _buildError None (Some too_many_requests) = Normal (Some d)
                  /\ exists k, d !! k = Some (VNum 2000)).
Proof.
  split; [| split].
  - vm_compute. reflexivity.
  - reflexivity.
  - intros (d & Hd & k & Hk).
    assert (d = <["retryAfter" := VStr "2"]>
                  (<["statusCode" := VNum 429]> (∅ : obj))) as ->.
    { unfold _buildError in Hd. simpl in Hd. by injection Hd as <-. }
    destruct (decide (k = "retryAfter")) as [-> | Hk1].
    { rewrite lookup_insert_eq in Hk. discriminate. }
    rewrite lookup_insert_ne in Hk by done.
    destruct (decide (k = "statusCode")) as [-> | Hk2].
    { rewrite lookup_insert_eq in Hk. discriminate. }
    rewrite lookup_insert_ne, lookup_empty in Hk by done. discriminate.
Qed.

(** C7: when [request] reports a failed exchange (an error and no response)
    the function that [_createAttachment] gives to [request.post] throws a
    [TypeError] inside [_buildError], whatever the error is, before it
    reaches the callback; the same error given to the callback directly, as
    a wrapped client method gives it, is rejected at once. *)
Theorem createAttachment_no_response
    (JSON_parse : string -> completion json) (e : obj) :
  _buildError (Some e) None
  = Throw (TypeError "Cannot read property 'headers' of undefined")
  /\ _createAttachment_done JSON_parse (Some e) None None
     = Throw (TypeError "Cannot read property 'headers' of undefined")
  /\ _createAttachment_done JSON_parse (Some connection_refused) None None
     = Throw (TypeError "Cannot read property 'headers' of undefined")
  /\ callback 6 (Some connection_refused) tt = (Reject connection_refused, 6).
Proof. repeat split. Qed.

(** *** The attachment upload and the authenticated request *)

(** C9: the request parameters hold the configured base URL followed by the
    endpoint, and one auth block: the bearer token when [oauth] is set,
    whether or not a password is set too; otherwise user and password when
    a password is set; otherwise the user name followed by [/token] with
    the API token as password. *)
Theorem buildAuthRequest_precedence (options : obj) (endpoint : string) :
  url (_buildAuthRequest options endpoint)
  = to_string (get options "remoteUri") +:+ endpoint
  /\ (forall base, get options "remoteUri" = VStr base ->
        url (_buildAuthRequest options endpoint) = base +:+ endpoint)
  /\ (truthy (get options "oauth") = true ->
        auth (_buildAuthRequest options endpoint)
        = {[ "bearer" := get options "token" ]})
  /\ (truthy (get options "oauth") = false ->
      truthy (get options "password") = true ->
        auth (_buildAuthRequest options endpoint)
        = {[ "user" := get options "username";
             "pass" := get options "password" ]})
  /\ (truthy (get options "oauth") = false ->
      truthy (get options "password") = false ->
        auth (_buildAuthRequest options endpoint)
        = {[ "user" := VStr (to_string (get options "username") +:+ "/token");
             "pass" := get options "token" ]}).
Proof.
  unfold _buildAuthRequest. simpl.
  split; [done |]. split; [by intros base -> |].
  split; [| split].
  - intros ->. unfold set. by rewrite insert_empty.
  - intros -> ->. unfold set. rewrite insert_empty.
    by apply insert_insert_ne.
  - intros -> ->. unfold set. rewrite insert_empty.
    by apply insert_insert_ne.
Qed.

Lemma buildAuthRequest_precedence_witness :
  truthy (get options_oauth "password") = true
  /\ auth (_buildAuthRequest options_oauth "/articles.json")
     = {[ "bearer" := VStr "tok" ]}
  /\ auth (_buildAuthRequest options_password "/articles.json")
     = {[ "user" := VStr "ann"; "pass" := VStr "secret" ]}
  /\ auth (_buildAuthRequest options_token "/articles.json")
     = {[ "user" := VStr "ann/token"; "pass" := VStr "tok" ]}.
Proof.
  split; [reflexivity |]. split; [| split].
  - exact (proj1 (proj2 (proj2
      (buildAuthRequest_precedence options_oauth "/articles.json")))
      eq_refl).
  - exact (proj1 (proj2 (proj2 (proj2
      (buildAuthRequest_precedence options_password "/articles.json"))))
      eq_refl eq_refl).
  - exact (proj2 (proj2 (proj2 (proj2
      (buildAuthRequest_precedence options_token "/articles.json"))))
      eq_refl eq_refl).
Defined.

(** C8: the upload request goes to the base URL followed by
    [/articles/<articleId>/attachments.json], with the auth block of the
    request builder and form data whose [inline] field is the string
    ["true"], not the boolean; its completion passes [null] as result when
    there is no body or an empty one, and otherwise the
    [article_attachment] property of the parsed body. *)
Theorem createAttachment_spec
    (JSON_parse : string -> completion json)
    (options : obj) (articleId resourcePath : value)
    (error : option obj) (response : option http_response)
    (error1 : option obj) :
  _buildError error response = Normal error1 ->
  url (_createAttachment_params options articleId resourcePath)
  = to_string (get options "remoteUri")
    +:+ ("/articles/" +:+ to_string articleId +:+ "/attachments.json")
  /\ auth (_createAttachment_params options articleId resourcePath)
     = auth (_buildAuthRequest options
               ("/articles/" +:+ to_string articleId +:+ "/attachments.json"))
  /\ formData (_createAttachment_params options articleId resourcePath)
     = Some {| inline := VStr "true"; file := ReadStream resourcePath |}
  /\ VStr "true" <> VBool true
  /\ _createAttachment_done JSON_parse error response None
     = Normal (error1, response, JVal JNull)
  /\ _createAttachment_done JSON_parse error response (Some EmptyString)
     = Normal (error1, response, JVal JNull)
  /\ (forall text props record,
        text <> EmptyString ->
        JSON_parse text = Normal (JObj props) ->
        assoc "article_attachment" props = Some record ->
        _createAttachment_done JSON_parse error response (Some text)
        = Normal (error1, response, JVal record)).
Proof.
  intros Herr. repeat split; try done.
  - unfold _createAttachment_done. simpl. by rewrite Herr.
  - unfold _createAttachment_done. simpl. by rewrite Herr.
  - intros text props record Htext Hparse Hrec.
    unfold _createAttachment_done.
    assert (truthy (VStr text) = true) as ->.
    { simpl. apply negb_true_iff. by apply String.eqb_neq. }
    rewrite Hparse. simpl. unfold ARTICLE_ATTACHMENT. rewrite Hrec, Herr.
    reflexivity.
Qed.

Lemma createAttachment_spec_witness :
  url (_createAttachment_params options_token (VNum 42) (VStr "logo.png"))
  = "https://help.example.com/api/v2/help_center/articles/42/attachments.json"
  /\ _createAttachment_done sample_parse None
       (Some {| statusCode := VNum 201; headers := Some ∅ |})
       (Some sample_body)
     = Normal (None, Some {| statusCode := VNum 201; headers := Some ∅ |},
               JVal (JObj [("id", JNum 7)])).
Proof.
  pose proof (createAttachment_spec sample_parse options_token
                (VNum 42) (VStr "logo.png") None
                (Some {| statusCode := VNum 201; headers := Some ∅ |})
                None eq_refl) as (Hurl & _ & _ & _ & _ & _ & Hdone).
  split; [exact Hurl |].
  apply (Hdone sample_body
                 [("article_attachment", JObj [("id", JNum 7)])]);
    [discriminate | reflexivity | reflexivity].
Defined.

(** *** The constructor *)

Section ConstructorFacts.
Variable c : client.

Lemma wrapPrototypeMethods_lookup this property this' p :
  _wrapPrototypeMethods c this property = Normal this' ->
  is_Some (this' !! p) -> is_Some (this !! p) \/ is_Some (c !! p).
Proof.
  unfold _wrapPrototypeMethods.
  destruct (c !! property) as [[| prototype] |] eqn:Hc; try discriminate.
  - intros [= <-] Hp. destruct (decide (property = p)) as [<- | Hne].
    + right. by rewrite Hc.
    + left. by rewrite lookup_insert_ne in Hp.
  - intros [= <-]. by left.
Qed.

Lemma wrap_all_lookup (l : list string) acc this p :
  fold_left (fun acc endpoint =>
               this ← acc; _wrapPrototypeMethods c this endpoint) l acc
  = Normal this ->
  is_Some (this !! p) ->
  (exists this0, acc = Normal this0 /\ is_Some (this0 !! p))
  \/ is_Some (c !! p).
Proof.
  revert acc. induction l as [| endpoint l IH]; intros acc; simpl.
  - intros -> Hp. left. eauto.
  - intros Hfold Hp. destruct (IH _ Hfold Hp) as [(this1 & Hstep & Hp1) | ?];
      [| by right].
    destruct acc as [this0 | e]; [| discriminate]. simpl in Hstep.
    destruct (wrapPrototypeMethods_lookup _ _ _ _ Hstep Hp1); [left | right];
      eauto.
Qed.

End ConstructorFacts.

(** C10: if construction succeeds, a client was given and it has an own
    property [articleattachments], whose wrapped counterpart then has the
    [create] operation; given a client without that property (or no
    client), the constructor throws and returns no wrapper. *)
Theorem constructor_needs_attachments (c : option client) (w : wrapper) :
  constructor c = Normal w ->
  (exists cl, c = Some cl /\ is_Some (cl !! "articleattachments"))
  /\ (exists surface, wrapped w !! "articleattachments" = Some surface
                      /\ surface !! "create" = Some CreateAttachment)
  /\ (forall cl : client, cl !! "articleattachments" = None ->
        exists e, constructor (Some cl) = Throw e)
  /\ constructor None = Throw (Error "No ZenDesk client to wrap provided!").
Proof.
  assert (forall cl w', constructor (Some cl) = Normal w' ->
            is_Some (cl !! "articleattachments")
            /\ exists surface, wrapped w' !! "articleattachments" = Some surface
                               /\ surface !! "create" = Some CreateAttachment)
    as Hok.
  { intros cl w'. unfold constructor.
    destruct (fold_left _ endpoints (Normal ∅)) as [this | e] eqn:Hfold;
      [| discriminate]. simpl.
    destruct (this !! "articleattachments") as [surface |] eqn:Hs;
      [| discriminate].
    intros [= <-]. simpl. split.
    - destruct (wrap_all_lookup cl _ _ _ "articleattachments" Hfold)
        as [(this0 & [= <-] & Hp) | Hp]; [by rewrite Hs | | done].
      rewrite lookup_empty in Hp. by destruct Hp.
    - eexists. rewrite lookup_insert_eq. split; [done |].
      by rewrite lookup_insert_eq. }
  intros Hc. destruct c as [cl |]; [| discriminate].
  destruct (Hok _ _ Hc) as [Hhas Hcreate].
  split; [eauto |]. split; [done |]. split; [| done].
  intros cl' Hnone. destruct (constructor (Some cl')) as [w' | e] eqn:Hc';
    [| eauto].
  destruct (Hok _ _ Hc') as [[? Hsome] _]. congruence.
Qed.

Lemma constructor_needs_attachments_witness :
  (exists w, constructor (Some client_full) = Normal w)
  /\ is_Some (client_full !! "articleattachments")
  /\ constructor (Some client_bare)
     = Throw (TypeError "Cannot set property 'create' of undefined").
Proof.
  split; [| split].
  - vm_compute. eauto.
  - destruct (constructor (Some client_full)) as [w | e] eqn:Hc.
    + destruct (proj1 (constructor_needs_attachments _ w Hc))
        as (cl & [= <-] & Hsome). exact Hsome.
    + vm_compute in Hc. discriminate.
  - vm_compute. reflexivity.
Defined.

(** *** The request queue *)

Section ListFacts.
Context {A : Type}.
Implicit Types (f g : A -> nat) (l : list A).

Lemma sum_list_with_insert f l i x y :
  l !! i = Some x ->
  (sum_list_with f (<[i := y]> l) + f x = sum_list_with f l + f y)%nat.
Proof.
  revert i. induction l as [| a l IH]; intros [| i] Hi; csimpl in *;
    try discriminate.
  - injection Hi as ->. lia.
  - specialize (IH i Hi). lia.
Qed.

Lemma sum_list_with_le f g l :
  (forall i x, l !! i = Some x -> (f x <= g x)%nat) ->
  (sum_list_with f l <= sum_list_with g l)%nat.
Proof.
  induction l as [| a l IH]; intros H; csimpl; [lia |].
  pose proof (H 0%nat a eq_refl).
  assert (sum_list_with f l <= sum_list_with g l)%nat
    by (apply IH; intros i x Hi; exact (H (S i) x Hi)).
  lia.
Qed.

Lemma sum_list_with_pos f l :
  (0 < sum_list_with f l)%nat ->
  exists i x, l !! i = Some x /\ (0 < f x)%nat.
Proof.
  induction l as [| a l IH]; csimpl; [lia |]. intros Hpos.
  destruct (f a) as [| n] eqn:Hfa.
  - destruct (IH Hpos) as (i & x & Hi & Hx). by exists (S i), x.
  - exists 0%nat, a. split; [done | lia].
Qed.

End ListFacts.

(** [sum_after_insert f Hu H]: how the total of [f] changes by the list
    update in the goal, where [Hu] tells what was stored there. *)
Ltac sum_after_insert f Hu H :=
  match type of Hu with
  | ?l !! ?i = Some ?x =>
      match goal with
      | |- context [<[i := ?y]> l] =>
          pose proof (sum_list_with_insert f l i x y Hu) as H
      end
  end.

(** Replaces every total by a variable, so that the summands can be
    computed without touching the totals. *)
Ltac hide_sums :=
  repeat match goal with
    | H : context [sum_list_with ?f ?l] |- _ =>
        let v := fresh "total" in
        set (v := sum_list_with f l) in *; clearbody v
    | |- context [sum_list_with ?f ?l] =>
        let v := fresh "total" in
        set (v := sum_list_with f l) in *; clearbody v
    end.

Import Pool.

Section PoolFacts.
Context {R : Type}.
Implicit Types (s : state R) (u : unit_state R) (e : event R).

Lemma initial_invariant : invariant (@initial R).
Proof.
  split; [split |]; simpl; try done.
  - unfold MAX_CONCURRENT. lia.
  - intros id. split; [by intros ?%elem_of_nil | by intros (u & ? & _)].
  - constructor.
Qed.

(** [_dequeue] either leaves the state alone, because every slot is taken
    or nobody waits, or starts the oldest waiting request. *)
Lemma dequeue_cases s :
  consistent s ->
  (_dequeue s = s
   /\ ((MAX_CONCURRENT <= pendingPromises s)%nat \/ queue s = []))
  \/ exists id rest u,
       queue s = id :: rest
       /\ units s !! id = Some u
       /\ started u = false
       /\ (pendingPromises s < MAX_CONCURRENT)%nat
       /\ _dequeue s
          = {| units := <[id := {| started := true;
                                   retries := retries u;
                                   outstanding := S (outstanding u);
                                   sleeping := sleeping u;
                                   settled := settled u;
                                   slot := true |}]> (units s);
               queue := rest;
               pendingPromises := S (pendingPromises s) |}.
Proof.
  intros Hc. unfold _dequeue.
  destruct (MAX_CONCURRENT <=? pendingPromises s)%nat eqn:Hfull.
  { left. split; [done |]. left. by apply Nat.leb_le. }
  apply Nat.leb_gt in Hfull.
  destruct (queue s) as [| id rest] eqn:Hq; [left; auto |].
  destruct (proj1 (cons_queue s Hc id)) as (u & Hu & Hst).
  { rewrite Hq. by left. }
  right. exists id, rest, u. by rewrite Hu.
Qed.

Lemma dequeue_invariant s :
  consistent s ->
  (tl (queue s) <> [] -> (MAX_CONCURRENT <= S (pendingPromises s))%nat) ->
  invariant (_dequeue s).
Proof.
  intros Hc Htail.
  destruct (dequeue_cases s Hc)
    as [[-> Hidle] | (id & rest & u & Hq & Hu & Hst & Hfree & ->)].
  { split; [done |]. intros Hne. pose proof (cons_bound s Hc).
    destruct Hidle; [lia | done]. }
  pose proof (cons_units s Hc id u Hu) as Hok. unfold unit_ok in Hok.
  rewrite Hst in Hok.
  destruct (settled u) eqn:Hset; [done |]. destruct Hok as (Hslot & Hout & Hsl).
  pose proof (cons_nodup s Hc) as Hnd. rewrite Hq in Hnd.
  apply NoDup_cons in Hnd as [Hnotin Hnd].
  split; [split |]; simpl.
  - intros id' u' Hu'. destruct (decide (id = id')) as [<- | Hne].
    + rewrite list_lookup_insert_eq in Hu' by (by eapply lookup_lt_Some).
      injection Hu' as <-. unfold unit_ok. simpl. rewrite Hout, Hsl.
      split; [done |]. simpl. lia.
    + rewrite list_lookup_insert_ne in Hu' by done. by eapply cons_units.
  - rewrite (cons_pending s Hc). sum_after_insert (@holds_slot R) Hu Hsum.
    hide_sums. unfold holds_slot in Hsum. simpl in Hsum.
    rewrite Hslot in Hsum. lia.
  - lia.
  - intros id'. destruct (decide (id = id')) as [<- | Hne].
    + split; [done |]. intros (u' & Hu' & Hst').
      rewrite list_lookup_insert_eq in Hu' by (by eapply lookup_lt_Some).
      injection Hu' as <-. done.
    + rewrite list_lookup_insert_ne by done.
      rewrite <- (cons_queue s Hc id'), Hq, elem_of_cons.
      split; [by right | by intros [-> | ?]].
  - done.
  - intros Hrest. rewrite Hq in Htail. simpl in Htail.
    specialize (Htail Hrest). lia.
Qed.

Lemma dequeue_work s : consistent s -> (work (_dequeue s) <= work s)%nat.
Proof.
  intros Hc.
  destruct (dequeue_cases s Hc)
    as [[-> _] | (id & rest & u & Hq & Hu & Hst & Hfree & ->)]; [done |].
  pose proof (cons_units s Hc id u Hu) as Hok. unfold unit_ok in Hok.
  rewrite Hst in Hok.
  destruct (settled u) eqn:Hset; [done |]. destruct Hok as (Hslot & Hout & Hsl).
  unfold work. simpl. sum_after_insert (@unit_work R) Hu Hsum.
  hide_sums. unfold unit_work in Hsum. simpl in Hsum.
  rewrite Hst, Hslot in Hsum. lia.
Qed.

(** Putting a fresh request last in the queue keeps it consistent. *)
Lemma pushed_consistent s :
  consistent s ->
  consistent {| units := units s ++ [{| started := false;
                                        retries := MAX_RETRIES;
                                        outstanding := 0;
                                        sleeping := [];
                                        settled := None;
                                        slot := false |}];
                queue := queue s ++ [length (units s)];
                pendingPromises := pendingPromises s |}.
Proof.
  intros Hc. split; simpl.
  - intros id u [Hu | [_ Hu]]%lookup_app_Some; [by eapply cons_units |].
    apply list_lookup_singleton_Some in Hu as [_ <-]. by unfold unit_ok.
  - rewrite sum_list_with_app, (cons_pending s Hc). simpl. lia.
  - by apply cons_bound.
  - intros id. rewrite elem_of_app, list_elem_of_singleton.
    rewrite (cons_queue s Hc id). split.
    + intros [(u & Hu & Hst) | ->].
      * exists u. split; [| done]. by apply lookup_app_l_Some.
      * eexists.
        split; [by rewrite lookup_app_r, Nat.sub_diag by done | done].
    + intros (u & [Hu | [Hlen Hu]]%lookup_app_Some & Hst); [left; eauto |].
      right. apply list_lookup_singleton_Some in Hu as [Hz _]. lia.
  - apply NoDup_app. split; [by apply cons_nodup |].
    split; [| apply NoDup_singleton].
    intros id Hin ->%list_elem_of_singleton.
    apply (cons_queue s Hc) in Hin as (u & Hu & _).
    apply lookup_lt_Some in Hu. lia.
Qed.

Lemma add_invariant s : invariant s -> invariant (add s).
Proof.
  intros [Hc Hfull]. unfold add. apply dequeue_invariant.
  - by apply pushed_consistent.
  - simpl. intros Htail.
    assert (queue s <> []) as Hne by (destruct (queue s); done).
    rewrite (Hfull Hne). lia.
Qed.

(** A request with a call under way, or with a timer pending, has been
    started, holds a slot, is not settled and has nothing else going on. *)
Lemma unit_ok_busy u :
  unit_ok u ->
  (0 < outstanding u + length (sleeping u))%nat ->
  started u = true /\ settled u = None /\ slot u = true
  /\ (outstanding u + length (sleeping u) = 1)%nat.
Proof.
  unfold unit_ok. destruct (started u), (settled u); intros Hok Hpos.
  - destruct Hok as [Ho Hs]. rewrite Ho, Hs in Hpos. simpl in Hpos. lia.
  - destruct Hok. repeat split; auto. lia.
  - done.
  - destruct Hok as (_ & Ho & Hs). rewrite Ho, Hs in Hpos. simpl in Hpos. lia.
Qed.

(** Replacing a request by one in the same slot and start state keeps the
    queue consistent. *)
Lemma update_consistent s id u u' :
  consistent s ->
  units s !! id = Some u ->
  unit_ok u' ->
  slot u' = slot u ->
  started u' = started u ->
  consistent {| units := <[id := u']> (units s);
                queue := queue s;
                pendingPromises := pendingPromises s |}.
Proof.
  intros Hc Hu Hok Hslot Hst. split; simpl.
  - intros id' u'' Hu'. destruct (decide (id = id')) as [<- | Hne].
    + rewrite list_lookup_insert_eq in Hu' by (by eapply lookup_lt_Some).
      by injection Hu' as <-.
    + rewrite list_lookup_insert_ne in Hu' by done. by eapply cons_units.
  - rewrite (cons_pending s Hc). sum_after_insert (@holds_slot R) Hu Hsum.
    hide_sums. unfold holds_slot in Hsum. rewrite Hslot in Hsum. lia.
  - by apply cons_bound.
  - intros id'. rewrite (cons_queue s Hc id').
    destruct (decide (id = id')) as [<- | Hne].
    + rewrite list_lookup_insert_eq, Hu by (by eapply lookup_lt_Some).
      split; intros (u0 & [= <-] & Hst0); eexists; (split; [done |]);
        congruence.
    + by rewrite list_lookup_insert_ne by done.
  - by apply cons_nodup.
Qed.

Lemma complete_invariant s id err result s' :
  invariant s -> complete s id err result = Some s' -> invariant s'.
Proof.
  intros [Hc Hfull]. unfold complete.
  destruct (units s !! id) as [u |] eqn:Hu; [| discriminate].
  destruct (outstanding u) as [| o] eqn:Hout; [discriminate |].
  pose proof (cons_units s Hc id u Hu) as Hok.
  destruct (unit_ok_busy u Hok ltac:(lia)) as (Hst & Hset & Hslot & Hone).
  assert (o = 0%nat /\ sleeping u = []) as [-> Hsl].
  { destruct (sleeping u); simpl in Hone; [split; [lia | done] | lia]. }
  intros [= <-]. split; [| exact Hfull].
  destruct (callback (retries u) err result) as [[r | d | e] retries'];
    (eapply update_consistent; [done | done | | done | done]);
    unfold unit_ok; simpl; rewrite Hst, ?Hset, ?Hsl; simpl; auto.
Qed.

Lemma escape_invariant s id s' :
  invariant s -> escape s id = Some s' -> invariant s'.
Proof.
  intros [Hc Hfull]. unfold escape.
  destruct (units s !! id) as [u |] eqn:Hu; [| discriminate].
  destruct (outstanding u) as [| o] eqn:Hout; [discriminate |].
  pose proof (cons_units s Hc id u Hu) as Hok.
  destruct (unit_ok_busy u Hok ltac:(lia)) as (Hst & Hset & Hslot & Hone).
  intros [= <-]. split; [| exact Hfull].
  eapply update_consistent; [done | done | | done | done].
  unfold unit_ok. simpl. rewrite Hst, Hset. split; [done | lia].
Qed.

Lemma fire_invariant s id s' :
  invariant s -> fire s id = Some s' -> invariant s'.
Proof.
  intros [Hc Hfull]. unfold fire.
  destruct (units s !! id) as [u |] eqn:Hu; [| discriminate].
  destruct (sleeping u) as [| d later] eqn:Hsl; [discriminate |].
  pose proof (cons_units s Hc id u Hu) as Hok.
  destruct (unit_ok_busy u Hok ltac:(rewrite Hsl; simpl; lia))
    as (Hst & Hset & Hslot & Hone).
  rewrite Hsl in Hone. simpl in Hone.
  assert (outstanding u = 0%nat /\ later = []) as [Hout ->].
  { destruct later; simpl in Hone; [split; [lia | done] | lia]. }
  intros [= <-]. split; [| exact Hfull].
  eapply update_consistent; [done | done | | done | done].
  unfold unit_ok. simpl. rewrite Hst, Hset, Hout. simpl. auto.
Qed.

(** What [release] hands to [_dequeue]. *)
Lemma release_inv s id s' :
  release s id = Some s' ->
  exists u,
    units s !! id = Some u /\ is_Some (settled u) /\ slot u = true
    /\ s' = _dequeue
              {| units := <[id := {| started := started u;
                                     retries := retries u;
                                     outstanding := outstanding u;
                                     sleeping := sleeping u;
                                     settled := settled u;
                                     slot := false |}]> (units s);
                 queue := queue s;
                 pendingPromises := pred (pendingPromises s) |}.
Proof.
  unfold release. destruct (units s !! id) as [u |] eqn:Hu; [| discriminate].
  destruct (settled u) eqn:Hset; [| discriminate].
  destruct (slot u) eqn:Hslot; [| discriminate].
  intros [= <-]. exists u. rewrite Hset. eauto.
Qed.

Lemma released_consistent s id u :
  consistent s ->
  units s !! id = Some u -> is_Some (settled u) -> slot u = true ->
  (0 < pendingPromises s)%nat
  /\ consistent {| units := <[id := {| started := started u;
                                       retries := retries u;
                                       outstanding := outstanding u;
                                       sleeping := sleeping u;
                                       settled := settled u;
                                       slot := false |}]> (units s);
                   queue := queue s;
                   pendingPromises := pred (pendingPromises s) |}.
Proof.
  intros Hc Hu [x Hset] Hslot.
  pose proof (cons_units s Hc id u Hu) as Hok.
  assert (started u = true) as Hst.
  { unfold unit_ok in Hok. rewrite Hset in Hok. by destruct (started u). }
  assert (sum_list_with holds_slot
            (<[id := {| started := started u; retries := retries u;
                        outstanding := outstanding u; sleeping := sleeping u;
                        settled := settled u; slot := false |}]> (units s)) + 1
          = pendingPromises s)%nat as Hsum.
  { rewrite (cons_pending s Hc).
    pose proof (sum_list_with_insert holds_slot (units s) id u
                  {| started := started u; retries := retries u;
                     outstanding := outstanding u; sleeping := sleeping u;
                     settled := settled u; slot := false |} Hu) as Hsum.
    hide_sums. unfold holds_slot in Hsum. simpl in Hsum.
    rewrite Hslot in Hsum. lia. }
  split; [lia |]. split; simpl.
  - intros id' u' Hu'. destruct (decide (id = id')) as [<- | Hne].
    + rewrite list_lookup_insert_eq in Hu' by (by eapply lookup_lt_Some).
      injection Hu' as <-. unfold unit_ok in *. simpl.
      rewrite Hst, Hset in *. done.
    + rewrite list_lookup_insert_ne in Hu' by done. by eapply cons_units.
  - lia.
  - pose proof (cons_bound s Hc). lia.
  - intros id'. rewrite (cons_queue s Hc id').
    destruct (decide (id = id')) as [<- | Hne].
    + rewrite list_lookup_insert_eq, Hu by (by eapply lookup_lt_Some).
      split; intros (u0 & [= <-] & Hst0); simpl in *; congruence.
    + by rewrite list_lookup_insert_ne by done.
  - by apply cons_nodup.
Qed.

Lemma release_invariant s id s' :
  invariant s -> release s id = Some s' -> invariant s'.
Proof.
  intros [Hc Hfull] (u & Hu & Hset & Hslot & ->)%release_inv.
  destruct (released_consistent s id u Hc Hu Hset Hslot) as [Hpos Hc'].
  apply dequeue_invariant; [done |]. simpl. intros Htail.
  assert (queue s <> []) as Hne by (destruct (queue s); done).
  rewrite (Hfull Hne). unfold MAX_CONCURRENT. lia.
Qed.

Lemma step_invariant s e s' :
  invariant s -> step s e = Some s' -> invariant s'.
Proof.
  intros Hinv. destruct e as [| id err result | id | id | id]; simpl.
  - intros [= <-]. by apply add_invariant.
  - by apply complete_invariant.
  - by apply escape_invariant.
  - by apply fire_invariant.
  - by apply release_invariant.
Qed.

Lemma run_invariant es s s' :
  invariant s -> run s es = Some s' -> invariant s'.
Proof.
  revert s. induction es as [| e es IH]; intros s Hinv; simpl.
  - by intros [= <-].
  - destruct (step s e) as [s1 |] eqn:Hstep; [| discriminate].
    apply IH. by eapply step_invariant.
Qed.

Lemma reachable_invariant s : reachable s -> invariant s.
Proof. intros [es Hrun]. eapply run_invariant; [apply initial_invariant | done]. Qed.

(** Every event but a submission takes from the work left. *)
Lemma complete_work s id err result s' :
  complete s id err result = Some s' -> (work s' < work s)%nat.
Proof.
  unfold complete.
  destruct (units s !! id) as [u |] eqn:Hu; [| discriminate].
  destruct (outstanding u) as [| o] eqn:Hout; [discriminate |].
  intros [= <-]. unfold work. simpl.
  sum_after_insert (@unit_work R) Hu Hsum. hide_sums.
  destruct (callback (retries u) err result) as [[r | d | e] retries'] eqn:Hcb;
    unfold unit_work in Hsum; simpl in Hsum; rewrite ?Hout in Hsum.
  - lia.
  - apply callback_retry_inv in Hcb as [Hpos ->].
    rewrite length_app in Hsum. simpl in Hsum. lia.
  - lia.
Qed.

Lemma escape_work s id s' : escape s id = Some s' -> (work s' < work s)%nat.
Proof.
  unfold escape.
  destruct (units s !! id) as [u |] eqn:Hu; [| discriminate].
  destruct (outstanding u) as [| o] eqn:Hout; [discriminate |].
  intros [= <-]. unfold work. simpl.
  sum_after_insert (@unit_work R) Hu Hsum. hide_sums.
  unfold unit_work in Hsum. simpl in Hsum. rewrite Hout in Hsum. lia.
Qed.

Lemma fire_work s id s' : fire s id = Some s' -> (work s' < work s)%nat.
Proof.
  unfold fire.
  destruct (units s !! id) as [u |] eqn:Hu; [| discriminate].
  destruct (sleeping u) as [| d later] eqn:Hsl; [discriminate |].
  intros [= <-]. unfold work. simpl.
  sum_after_insert (@unit_work R) Hu Hsum. hide_sums.
  unfold unit_work in Hsum. simpl in Hsum. rewrite Hsl in Hsum.
  simpl in Hsum. lia.
Qed.

Lemma release_work s id s' :
  invariant s -> release s id = Some s' -> (work s' < work s)%nat.
Proof.
  intros [Hc _] (u & Hu & Hset & Hslot & ->)%release_inv.
  destruct (released_consistent s id u Hc Hu Hset Hslot) as [_ Hc'].
  eapply Nat.le_lt_trans; [by apply dequeue_work |].
  unfold work. simpl.
  pose proof (sum_list_with_insert unit_work (units s) id u
                {| started := started u; retries := retries u;
                   outstanding := outstanding u; sleeping := sleeping u;
                   settled := settled u; slot := false |} Hu) as Hsum.
  hide_sums. unfold unit_work in Hsum. simpl in Hsum.
  rewrite Hslot in Hsum. lia.
Qed.

Lemma step_work s e s' :
  invariant s -> is_add e = false -> step s e = Some s' ->
  (work s' < work s)%nat.
Proof.
  intros Hinv. destruct e as [| id err result | id | id | id]; simpl;
    [discriminate | intros _ .. ].
  - apply complete_work.
  - apply escape_work.
  - apply fire_work.
  - by apply release_work.
Qed.

Lemma run_work es s s' :
  invariant s -> Forall (fun e => is_add e = false) es ->
  run s es = Some s' -> (length es + work s' <= work s)%nat.
Proof.
  revert s. induction es as [| e es IH]; intros s Hinv Hes; simpl.
  - intros [= <-]. lia.
  - apply Forall_cons in Hes as [He Hes].
    destruct (step s e) as [s1 |] eqn:Hstep; [| discriminate].
    intros Hrun. pose proof (step_work s e s1 Hinv He Hstep).
    pose proof (IH s1 (step_invariant _ _ _ Hinv Hstep) Hes Hrun). lia.
Qed.

(** *** Liveness, as long as calls end through the callback *)

Lemma not_stuck_busy u :
  unit_ok u -> ~ stuck u -> started u = true -> settled u = None ->
  (outstanding u + length (sleeping u) = 1)%nat.
Proof.
  intros Hok Hlive Hst Hset. unfold unit_ok in Hok. rewrite Hst, Hset in Hok.
  destruct Hok as [_ Hle].
  destruct (outstanding u) as [| o] eqn:Hout;
    [destruct (sleeping u) as [| d later] eqn:Hsl |]; simpl in *; try lia.
  destruct Hlive. by rewrite <- Hout in *.
Qed.

Lemma update_live s id u' q n :
  all_live s -> ~ stuck u' ->
  all_live {| units := <[id := u']> (units s); queue := q;
              pendingPromises := n |}.
Proof.
  intros Hlive Hu' id' u''. simpl. intros Hlook.
  destruct (decide (id = id')) as [<- | Hne].
  - destruct (decide (id < length (units s))%nat) as [Hlt | Hge].
    + rewrite list_lookup_insert_eq in Hlook by done. by injection Hlook as <-.
    + rewrite list_insert_ge in Hlook by lia. by eapply Hlive.
  - rewrite list_lookup_insert_ne in Hlook by done. by eapply Hlive.
Qed.

Lemma dequeue_live s : consistent s -> all_live s -> all_live (_dequeue s).
Proof.
  intros Hc Hlive.
  destruct (dequeue_cases s Hc)
    as [[-> _] | (id & rest & u & Hq & Hu & Hst & Hfree & ->)]; [done |].
  apply update_live; [done |]. intros (_ & _ & Hout & _). discriminate.
Qed.

Lemma add_live s : invariant s -> all_live s -> all_live (add s).
Proof.
  intros [Hc _] Hlive. unfold add. apply dequeue_live.
  - by apply pushed_consistent.
  - intros id u. simpl. intros [Hu | [_ Hu]]%lookup_app_Some;
      [by eapply Hlive |].
    apply list_lookup_singleton_Some in Hu as [_ <-].
    intros (Hst & _). discriminate.
Qed.

Lemma complete_live s id err result s' :
  all_live s -> complete s id err result = Some s' -> all_live s'.
Proof.
  intros Hlive. unfold complete.
  destruct (units s !! id) as [u |] eqn:Hu; [| discriminate].
  destruct (outstanding u) as [| o] eqn:Hout; [discriminate |].
  intros [= <-]. apply update_live; [done |].
  destruct (callback (retries u) err result) as [[r | d | e] retries'];
    intros (_ & Hset & _ & Hsl); simpl in *.
  - by destruct (settled u).
  - by destruct (sleeping u).
  - by destruct (settled u).
Qed.

Lemma fire_live s id s' : all_live s -> fire s id = Some s' -> all_live s'.
Proof.
  intros Hlive. unfold fire.
  destruct (units s !! id) as [u |] eqn:Hu; [| discriminate].
  destruct (sleeping u) as [| d later] eqn:Hsl; [discriminate |].
  intros [= <-]. apply update_live; [done |].
  intros (_ & _ & Hout & _). discriminate.
Qed.

Lemma release_live s id s' :
  invariant s -> all_live s -> release s id = Some s' -> all_live s'.
Proof.
  intros [Hc _] Hlive (u & Hu & Hset & Hslot & ->)%release_inv.
  destruct (released_consistent s id u Hc Hu Hset Hslot) as [_ Hc'].
  apply dequeue_live; [done |]. apply update_live; [done |].
  intros (_ & Hnone & _). simpl in Hnone. rewrite Hnone in Hset.
  by destruct Hset.
Qed.

Lemma step_live s e s' :
  invariant s -> all_live s -> is_escape e = false ->
  step s e = Some s' -> all_live s'.
Proof.
  intros Hinv Hlive. destruct e as [| id err result | id | id | id]; simpl;
    [intros _ | intros _ | discriminate | intros _ | intros _].
  - intros [= <-]. by apply add_live.
  - by apply complete_live.
  - by apply fire_live.
  - by apply release_live.
Qed.

Lemma run_live es s s' :
  invariant s -> all_live s -> Forall (fun e => is_escape e = false) es ->
  run s es = Some s' -> all_live s'.
Proof.
  revert s. induction es as [| e es IH]; intros s Hinv Hlive Hes; simpl.
  - by intros [= <-].
  - apply Forall_cons in Hes as [He Hes].
    destruct (step s e) as [s1 |] eqn:Hstep; [| discriminate].
    apply IH; [by eapply step_invariant | by eapply step_live | done].
Qed.

(** A request that holds a slot and is not stuck can move: its call
    completes, its timer fires, or its slot is released. *)
Lemma slot_holder_moves (result0 : R) s id u :
  invariant s -> units s !! id = Some u -> ~ stuck u -> slot u = true ->
  exists e s', is_add e = false /\ is_escape e = false
               /\ step s e = Some s'.
Proof.
  intros [Hc _] Hu Hlive Hslot. pose proof (cons_units s Hc id u Hu) as Hok.
  destruct (settled u) as [x |] eqn:Hset.
  - exists (Release id). eexists. split; [done |]. split; [done |].
    simpl. unfold release. by rewrite Hu, Hset, Hslot.
  - assert (started u = true) as Hst.
    { unfold unit_ok in Hok. rewrite Hset in Hok.
      destruct (started u); [done |]. destruct Hok as [Hno _]. congruence. }
    pose proof (not_stuck_busy u Hok Hlive Hst Hset) as Hone.
    destruct (outstanding u) as [| o] eqn:Hout.
    + destruct (sleeping u) as [| d later] eqn:Hsl; [simpl in Hone; lia |].
      exists (Fire id). eexists. split; [done |]. split; [done |].
      simpl. unfold fire. by rewrite Hu, Hsl.
    + exists (Complete id None result0). eexists.
      split; [done |]. split; [done |].
      simpl. unfold complete. by rewrite Hu, Hout.
Qed.

(** While a request is unsettled and none is stuck, something can
    happen. *)
Lemma progress (result0 : R) s id u :
  invariant s -> all_live s -> units s !! id = Some u -> settled u = None ->
  exists e s', is_add e = false /\ is_escape e = false
               /\ step s e = Some s'.
Proof.
  intros Hinv Hlive Hu Hset. pose proof Hinv as [Hc Hfull].
  destruct (started u) eqn:Hst.
  - pose proof (cons_units s Hc id u Hu) as Hok. unfold unit_ok in Hok.
    rewrite Hst, Hset in Hok. destruct Hok as [Hslot _].
    eapply slot_holder_moves; eauto.
  - assert (id ∈ queue s) as Hin by (apply (cons_queue s Hc); eauto).
    assert (queue s <> []) as Hne by (by intros Hq; rewrite Hq in Hin;
                                      apply elem_of_nil in Hin).
    pose proof (Hfull Hne) as Hpend. rewrite (cons_pending s Hc) in Hpend.
    destruct (sum_list_with_pos holds_slot (units s)) as (id2 & u2 & Hu2 & Hs2).
    { rewrite Hpend. unfold MAX_CONCURRENT. lia. }
    apply (slot_holder_moves result0 s id2 u2 Hinv Hu2); [by eapply Hlive |].
    unfold holds_slot in Hs2. destruct (slot u2); [done | lia].
Qed.

Lemma quiescent_all_settled (result0 : R) s :
  invariant s -> all_live s ->
  (forall e, is_add e = false -> is_escape e = false -> step s e = None) ->
  all_settled s.
Proof.
  intros Hinv Hlive Hquiet id u Hu.
  destruct (settled u) as [x |] eqn:Hset; [eauto |].
  destruct (progress result0 s id u Hinv Hlive Hu Hset)
    as (e & s' & He & Hesc & Hstep).
  rewrite (Hquiet e He Hesc) in Hstep. discriminate.
Qed.

(** From a state without stuck request the requests can all be brought to
    settlement without further submissions. *)
Lemma drains (result0 : R) (n : nat) : forall s,
  invariant s -> all_live s -> (work s <= n)%nat ->
  exists es s',
    Forall (fun e => is_add e = false /\ is_escape e = false) es
    /\ run s es = Some s' /\ all_settled s'.
Proof.
  induction n as [| n IH]; intros s Hinv Hlive Hwork.
  - exists [], s. split; [constructor |]. split; [done |].
    apply (quiescent_all_settled result0 s Hinv Hlive). intros e He _.
    destruct (step s e) as [s' |] eqn:Hstep; [| done].
    pose proof (step_work s e s' Hinv He Hstep). lia.
  - destruct (decide (Forall (fun u => is_Some (settled u)) (units s)))
      as [Hall | Hnot].
    + exists [], s. split; [constructor |]. split; [done |].
      intros id u Hu. rewrite Forall_forall in Hall. apply Hall.
      by eapply list_elem_of_lookup_2.
    + apply not_Forall_Exists in Hnot; [| apply _].
      apply Exists_exists in Hnot as (u & Hin & Hset).
      apply list_elem_of_lookup in Hin as [id Hu].
      destruct (settled u) as [x |] eqn:Hs; [by destruct Hset |].
      destruct (progress result0 s id u Hinv Hlive Hu Hs)
        as (e & s1 & He & Hesc & Hstep).
      pose proof (step_work s e s1 Hinv He Hstep).
      destruct (IH s1 (step_invariant _ _ _ Hinv Hstep)
                  (step_live _ _ _ Hinv Hlive Hesc Hstep) ltac:(lia))
        as (es & s' & Hes & Hrun & Hall).
      exists (e :: es), s'. split; [by constructor |]. split; [| done].
      simpl. by rewrite Hstep.
Qed.

(** *** A call that ends without the callback *)

(** [_dequeue] and the update of another request leave a started request
    as it is. *)
Lemma dequeue_keeps s id u :
  consistent s -> units s !! id = Some u -> started u = true ->
  units (_dequeue s) !! id = Some u.
Proof.
  intros Hc Hu Hst.
  destruct (dequeue_cases s Hc)
    as [[-> _] | (id' & rest & u' & Hq & Hu' & Hst' & Hfree & ->)]; [done |].
  simpl. rewrite list_lookup_insert_ne; [done |]. intros <-. congruence.
Qed.

(** A stuck request stays as it is, unsettled and with its slot, whatever
    happens afterwards. *)
Lemma stuck_step s e s' id u :
  invariant s -> units s !! id = Some u -> stuck u ->
  step s e = Some s' -> units s' !! id = Some u.
Proof.
  intros [Hc Hfull] Hu (Hst & Hset & Hout & Hsl).
  destruct e as [| id' err result | id' | id' | id']; simpl.
  - intros [= <-]. unfold add.
    apply dequeue_keeps; [by apply pushed_consistent | | done]. simpl.
    by apply lookup_app_l_Some.
  - unfold complete. destruct (decide (id' = id)) as [-> | Hne].
    + rewrite Hu, Hout. discriminate.
    + destruct (units s !! id') as [v |]; [| discriminate].
      destruct (outstanding v); [discriminate |]. intros [= <-]. simpl.
      by rewrite list_lookup_insert_ne.
  - unfold escape. destruct (decide (id' = id)) as [-> | Hne].
    + rewrite Hu, Hout. discriminate.
    + destruct (units s !! id') as [v |]; [| discriminate].
      destruct (outstanding v); [discriminate |]. intros [= <-]. simpl.
      by rewrite list_lookup_insert_ne.
  - unfold fire. destruct (decide (id' = id)) as [-> | Hne].
    + rewrite Hu, Hsl. discriminate.
    + destruct (units s !! id') as [v |]; [| discriminate].
      destruct (sleeping v); [discriminate |]. intros [= <-]. simpl.
      by rewrite list_lookup_insert_ne.
  - destruct (decide (id' = id)) as [-> | Hne].
    + unfold release. rewrite Hu, Hset. discriminate.
    + intros (v & Hv & Hvset & Hvslot & ->)%release_inv.
      destruct (released_consistent s id' v Hc Hv Hvset Hvslot) as [_ Hc'].
      apply dequeue_keeps; [done | | done]. simpl.
      by rewrite list_lookup_insert_ne.
Qed.

Lemma stuck_run es : forall s s' id u,
  invariant s -> units s !! id = Some u -> stuck u ->
  run s es = Some s' -> units s' !! id = Some u.
Proof.
  induction es as [| e es IH]; intros s s' id u Hinv Hu Hstuck; simpl.
  - by intros [= <-].
  - destruct (step s e) as [s1 |] eqn:Hstep; [| discriminate].
    apply IH; [by eapply step_invariant | by eapply stuck_step | done].
Qed.

(** The request whose call escapes is stuck from then on. *)
Lemma escape_stuck s id s' :
  invariant s -> escape s id = Some s' ->
  exists u, units s' !! id = Some u /\ stuck u /\ slot u = true.
Proof.
  intros [Hc _]. unfold escape.
  destruct (units s !! id) as [u |] eqn:Hu; [| discriminate].
  destruct (outstanding u) as [| o] eqn:Hout; [discriminate |].
  pose proof (cons_units s Hc id u Hu) as Hok.
  destruct (unit_ok_busy u Hok ltac:(lia)) as (Hst & Hset & Hslot & Hone).
  intros [= <-]. simpl. eexists.
  rewrite list_lookup_insert_eq by (by eapply lookup_lt_Some).
  split; [done |]. split; [| done]. unfold stuck. simpl.
  destruct (sleeping u); simpl in Hone; [| lia].
  repeat split; try done. lia.
Qed.

(** Once every slot is held by a stuck request, submissions are the only
    events left, and they only lengthen the queue. *)
Lemma jammed_step s e s' : jammed s -> step s e = Some s' -> jammed s'.
Proof.
  intros [Hfull Hall].
  destruct e as [| id err result | id | id | id]; simpl.
  - intros [= <-]. unfold add, _dequeue. cbn [pendingPromises].
    rewrite Hfull, Nat.leb_refl. split; [done |]. simpl.
    intros id u [Hu | [_ Hu]]%lookup_app_Some; [by eapply Hall |].
    by apply list_lookup_singleton_Some in Hu as [_ <-].
  - unfold complete. destruct (units s !! id) as [u |] eqn:Hu; [| done].
    destruct (Hall id u Hu) as (_ & -> & _). done.
  - unfold escape. destruct (units s !! id) as [u |] eqn:Hu; [| done].
    destruct (Hall id u Hu) as (_ & -> & _). done.
  - unfold fire. destruct (units s !! id) as [u |] eqn:Hu; [| done].
    destruct (Hall id u Hu) as (_ & _ & ->). done.
  - unfold release. destruct (units s !! id) as [u |] eqn:Hu; [| done].
    destruct (Hall id u Hu) as (-> & _). done.
Qed.

Lemma jammed_run es : forall s s',
  jammed s -> run s es = Some s' -> jammed s'.
Proof.
  induction es as [| e es IH]; intros s s' Hjam; simpl.
  - by intros [= <-].
  - destruct (step s e) as [s1 |] eqn:Hstep; [| discriminate].
    apply IH. by eapply jammed_step.
Qed.

End PoolFacts.

(** C6: where a transport call ends without the callback, the request does
    not settle. The completion of an upload whose connection was refused
    throws before the callback; in the queue, the request of such a call
    is from then on unsettled and keeps its slot in every state that
    follows, whatever else happens, so not every submitted request
    resolves or rejects; and once 29 requests have ended like this, every
    slot stays taken and no request, submitted before or after, is ever
    settled. *)
Theorem escaped_call_never_settles {R : Type}
    (JSON_parse : string -> completion json)
    (s s1 : state R) (id : nat) :
  reachable s ->
  escape s id = Some s1 ->
  (forall retries,
     upload_attempt JSON_parse retries (Some connection_refused) None None
     = Throw (TypeError "Cannot read property 'headers' of undefined"))
  /\ (forall es s',
        run s1 es = Some s' ->
        (exists u, units s' !! id = Some u
                   /\ settled u = None /\ slot u = true)
        /\ ~ all_settled s')
  /\ (run initial jam_events = Some jam_state
      /\ length (units jam_state) = 29%nat
      /\ forall es s',
           run jam_state es = Some s' ->
           pendingPromises s' = 29%nat
           /\ forall id' u, units s' !! id' = Some u -> settled u = None).
Proof.
  intros Hreach Hesc. pose proof (reachable_invariant s Hreach) as Hinv.
  split; [intros retries; reflexivity |]. split.
  - intros es s' Hrun.
    destruct (escape_stuck s id s1 Hinv Hesc) as (u & Hu & Hstuck & Hslot).
    pose proof (stuck_run es s1 s' id u
                  (escape_invariant _ _ _ Hinv Hesc) Hu Hstuck Hrun) as Hu'.
    destruct Hstuck as (_ & Hset & _).
    split; [eauto |]. intros Hall.
    destruct (Hall id u Hu') as [x Hx]. congruence.
  - split; [vm_compute; reflexivity |]. split; [vm_compute; reflexivity |].
    assert (jammed jam_state) as Hjam.
    { assert (units jam_state
              = replicate 29 {| started := true; retries := MAX_RETRIES;
                                outstanding := 0; sleeping := [];
                                settled := None; slot := true |}) as Hunits
        by (vm_compute; reflexivity).
      split; [vm_compute; reflexivity |]. intros id' u Hu.
      rewrite Hunits in Hu. apply lookup_replicate in Hu as [-> _].
      repeat split. }
    intros es s' Hrun.
    destruct (jammed_run es jam_state s' Hjam Hrun) as [Hfull Hall].
    split; [exact Hfull |]. intros id' u Hu. by destruct (Hall id' u Hu).
Qed.

Lemma escaped_call_never_settles_witness :
  run initial refused_events = Some refused_state
  /\ forall es s',
       run refused_state es = Some s' ->
       (exists u, units s' !! 0%nat = Some u
                  /\ settled u = None /\ slot u = true)
       /\ ~ all_settled s'.
Proof.
  split; [reflexivity |].
  refine (proj1 (proj2 (escaped_call_never_settles sample_parse
                          (add initial) refused_state 0 _ _))).
  - exists [Add]. reflexivity.
  - reflexivity.
Defined.

(** X15: in every state the wrapper can reach, also after calls that ended
    without the callback, at most MAX_CONCURRENT = 29 transport calls are
    under way (after 40 submissions: 29 under way, 11 waiting); a request
    never has more than one call or timer going, and the completion of a
    call and the firing of a retry timer leave the queue and the slots as
    they were; without further submissions at most [work s] events can
    still happen. As long as no request is stuck, which is so when every
    call so far ended through the callback, this stays so while calls end
    through the callback, the requests can then all be brought to
    settlement, and when nothing can happen any more every request is
    settled. *)
Theorem pool_bounded_and_live {R : Type} (result0 : R) (s : state R) :
  reachable s ->
  ((in_flight s <= pendingPromises s <= MAX_CONCURRENT)%nat
   /\ MAX_CONCURRENT = 29%nat)
  /\ (exists s40 : state R,
        run initial (replicate 40 Add) = Some s40
        /\ length (units s40) = 40%nat
        /\ in_flight s40 = 29%nat
        /\ length (queue s40) = 11%nat)
  /\ (forall id u, units s !! id = Some u ->
        (outstanding u + length (sleeping u) <= 1)%nat)
  /\ (forall id err result s',
        complete s id err result = Some s' ->
        queue s' = queue s
        /\ pendingPromises s' = pendingPromises s
        /\ length (units s') = length (units s)
        /\ (in_flight s' + 1 = in_flight s)%nat)
  /\ (forall id s',
        fire s id = Some s' ->
        queue s' = queue s
        /\ pendingPromises s' = pendingPromises s
        /\ length (units s') = length (units s)
        /\ (in_flight s' = in_flight s + 1)%nat
        /\ (in_flight s' <= MAX_CONCURRENT)%nat)
  /\ (forall es s',
        Forall (fun e => is_add e = false) es ->
        run s es = Some s' ->
        (length es + work s' <= work s)%nat)
  /\ (forall es0,
        run initial es0 = Some s ->
        Forall (fun e => is_escape e = false) es0 ->
        all_live s)
  /\ (all_live s ->
      (forall es s',
         Forall (fun e => is_escape e = false) es ->
         run s es = Some s' -> all_live s')
      /\ (exists es s',
            Forall (fun e => is_add e = false /\ is_escape e = false) es
            /\ run s es = Some s' /\ all_settled s')
      /\ ((forall e, is_add e = false -> is_escape e = false ->
             step s e = None) ->
          all_settled s)).
Proof.
  intros Hreach. pose proof (reachable_invariant s Hreach) as Hinv.
  pose proof Hinv as [Hc Hfull].
  assert (forall s1 : state R, invariant s1 ->
            (in_flight s1 <= pendingPromises s1 <= MAX_CONCURRENT)%nat)
    as Hbound.
  { intros s1 [Hc1 _]. split; [| by apply cons_bound].
    rewrite (cons_pending s1 Hc1). apply sum_list_with_le.
    intros id u Hu. pose proof (cons_units s1 Hc1 id u Hu) as Hok.
    destruct (outstanding u) as [| o] eqn:Hout; [lia |].
    destruct (unit_ok_busy u Hok ltac:(lia)) as (_ & _ & Hslot & Hone).
    unfold holds_slot. rewrite Hslot. lia. }
  split; [by split; [apply Hbound |] |].
  split. { eexists. split; [by vm_compute |]. by vm_compute. }
  split.
  { intros id u Hu. pose proof (cons_units s Hc id u Hu) as Hok.
    destruct (decide (outstanding u + length (sleeping u) = 0)%nat) as [-> | Hne];
      [lia |].
    destruct (unit_ok_busy u Hok ltac:(lia)) as (_ & _ & _ & ->). lia. }
  split.
  { intros id err result s' Hstep. pose proof Hstep as Hstep'.
    unfold complete in Hstep.
    destruct (units s !! id) as [u |] eqn:Hu; [| discriminate].
    destruct (outstanding u) as [| o] eqn:Hout; [discriminate |].
    injection Hstep as <-. simpl. rewrite length_insert.
    repeat split. unfold in_flight. simpl.
    sum_after_insert (@outstanding R) Hu Hsum. hide_sums.
    destruct (callback (retries u) err result) as [[r | d | e] retries'];
      simpl in Hsum; lia. }
  split.
  { intros id s' Hstep.
    pose proof (Hbound s' (fire_invariant _ _ _ Hinv Hstep)) as Hb'.
    unfold fire in Hstep.
    destruct (units s !! id) as [u |] eqn:Hu; [| discriminate].
    destruct (sleeping u) as [| d later] eqn:Hsl; [discriminate |].
    injection Hstep as <-. simpl in *. rewrite length_insert.
    repeat split; [| lia]. unfold in_flight. simpl.
    sum_after_insert (@outstanding R) Hu Hsum. hide_sums.
    simpl in Hsum. lia. }
  split. { intros es s'. by apply run_work. }
  split.
  { intros es0 Hrun Hes0.
    apply (run_live es0 initial s initial_invariant); [| done | done].
    intros id u Hu. simpl in Hu. by rewrite lookup_nil in Hu. }
  intros Hlive. split; [| split].
  - intros es s'. by apply run_live.
  - by apply (drains result0 (work s)).
  - by apply (quiescent_all_settled result0).
Qed.

Lemma pool_bounded_and_live_witness :
  reachable sample_state
  /\ (in_flight sample_state <= pendingPromises sample_state
       <= MAX_CONCURRENT)%nat
  /\ in_flight sample_state = 1%nat.
Proof.
  assert (reachable sample_state) as Hreach
    by (exists sample_events; reflexivity).
  split; [exact Hreach |].
  split; [| reflexivity].
  exact (proj1 (proj1 (pool_bounded_and_live tt sample_state Hreach))).
Defined.

(** ** Further properties of the wrapper *)

(** *** The backoff calculator on all integers *)

Lemma calcRetryAfter_low (n : Z) : n <= 0 -> _calcRetryAfter n = 500.
Proof.
  intros Hn. unfold _calcRetryAfter, RETRY_AFTER_DEFAULT, RETRY_AFTER_MAX.
  destruct (Z.eq_dec n 0) as [-> | Hne]; [reflexivity |].
  rewrite Z.pow_neg_r by lia. reflexivity.
Qed.

Lemma calcRetryAfter_pos (n : Z) :
  0 <= n -> _calcRetryAfter n = Z.min (500 * 2 ^ n) 8000.
Proof.
  intros Hn. unfold _calcRetryAfter, RETRY_AFTER_DEFAULT, RETRY_AFTER_MAX.
  assert (1 <= 2 ^ n) by (apply (Z.pow_le_mono_r 2 0 n); lia).
  by rewrite Z.max_l by lia.
Qed.

(** X1: whatever integer it is given, negative or large, the backoff
    calculator answers between 500 and 8000 milliseconds: 500 up to retry
    number 0 and 8000 from retry number 4 on. *)
Theorem calcRetryAfter_range (retryNumber : Z) :
  500 <= _calcRetryAfter retryNumber <= 8000
  /\ (retryNumber <= 0 -> _calcRetryAfter retryNumber = 500)
  /\ (4 <= retryNumber -> _calcRetryAfter retryNumber = 8000).
Proof.
  assert (4 <= retryNumber -> 16 <= 2 ^ retryNumber) as Hbig.
  { intros H4. apply (Z.pow_le_mono_r 2 4 retryNumber); lia. }
  split; [| split].
  - destruct (Z_le_gt_dec retryNumber 0) as [Hle | Hgt].
    + rewrite calcRetryAfter_low by done. lia.
    + rewrite calcRetryAfter_pos by lia.
      assert (1 <= 2 ^ retryNumber)
        by (apply (Z.pow_le_mono_r 2 0 retryNumber); lia).
      lia.
  - apply calcRetryAfter_low.
  - intros H4. rewrite calcRetryAfter_pos by lia. specialize (Hbig H4). lia.
Qed.

Lemma calcRetryAfter_range_witness :
  _calcRetryAfter (-3) = 500 /\ _calcRetryAfter 100 = 8000.
Proof.
  split.
  - apply (proj1 (proj2 (calcRetryAfter_range (-3)))). lia.
  - apply (proj2 (proj2 (calcRetryAfter_range 100))). lia.
Defined.

(** X2: the backoff never shrinks from one retry to a later one. *)
Theorem calcRetryAfter_monotone (n m : Z) :
  n <= m -> _calcRetryAfter n <= _calcRetryAfter m.
Proof.
  intros Hnm. destruct (Z_le_gt_dec n 0) as [Hle | Hgt].
  - rewrite (calcRetryAfter_low n) by done.
    destruct (Z_le_gt_dec m 0) as [Hm | Hm].
    + rewrite calcRetryAfter_low by done. lia.
    + rewrite calcRetryAfter_pos by lia.
      assert (1 <= 2 ^ m) by (apply (Z.pow_le_mono_r 2 0 m); lia). lia.
  - rewrite !calcRetryAfter_pos by lia.
    assert (2 ^ n <= 2 ^ m) by (apply Z.pow_le_mono_r; lia). lia.
Qed.

Lemma calcRetryAfter_monotone_witness :
  _calcRetryAfter 2 <= _calcRetryAfter 5.
Proof. apply (calcRetryAfter_monotone 2 5). lia. Defined.

(** *** A request under any transport *)

Section RequestFacts.
Context {R : Type}.
Variable transport : nat -> option obj * R.

Lemma callback_retryable (retries : Z) (e : obj) (result : R) :
  retryable (Some e, result) = true -> 0 < retries ->
  callback retries (Some e) result
  = (Retry (delay (MAX_RETRIES - retries) (Some e, result)), retries - 1).
Proof.
  unfold retryable, delay, callback. simpl. intros -> Hpos.
  assert ((0 <? retries) = true) as -> by (apply Z.ltb_lt; lia).
  reflexivity.
Qed.

Lemma callback_settles (retries : Z) (o : option obj * R) :
  retryable o = false \/ retries <= 0 ->
  (callback retries o.1 o.2).1
  = match settles o with
    | Resolved r => Resolve r
    | Rejected e => Reject e
    end.
Proof.
  destruct o as [[e |] result]; cbn [fst snd settles]; [| done].
  intros Hstop. rewrite callback_reject; [done |].
  destruct Hstop as [Hno | Hout]; [left | by right].
  unfold retryable in Hno. simpl in Hno. by apply orb_false_iff in Hno.
Qed.

(** After [j] retryable failures, with the counter not yet used up, the
    first call that is not retried settles the promise. *)
Lemma attempt_stops (j : nat) : forall fuel retries k delays,
  (j < fuel)%nat ->
  Z.of_nat j <= retries ->
  (forall i, (i < j)%nat -> retryable (transport (k + i)) = true) ->
  retryable (transport (k + j)) = false \/ retries - Z.of_nat j <= 0 ->
  attempt transport fuel retries k delays
  = Some {| calls := S (k + j);
            timers := delays ++
              ((fun i => delay (MAX_RETRIES - retries + Z.of_nat i)
                           (transport (k + i))) <$> seq 0 j);
            outcome := settles (transport (k + j)) |}.
Proof.
  induction j as [| j IH]; intros fuel retries k delays Hfuel Hle Hretry Hstop;
    (destruct fuel as [| fuel]; [lia |]); cbn [attempt].
  - rewrite Nat.add_0_r in *. simpl in Hstop. rewrite Z.sub_0_r in Hstop.
    pose proof (callback_settles retries (transport k) Hstop) as Hcb.
    destruct (transport k) as [err result]. simpl in Hcb.
    destruct (callback retries err result) as [act retries'].
    simpl in Hcb. subst act. rewrite app_nil_r. by destruct err.
  - pose proof (Hretry 0%nat ltac:(lia)) as H0. rewrite Nat.add_0_r in H0.
    destruct (transport k) as [[e |] result] eqn:Hk; [| done].
    rewrite (callback_retryable retries e result H0) by lia.
    rewrite (IH fuel (retries - 1) (S k) _ ltac:(lia) ltac:(lia)).
    + replace (S k + j)%nat with (k + S j)%nat by lia.
      f_equal. f_equal. rewrite <- app_assoc. f_equal.
      cbn [seq]. rewrite fmap_cons, Nat.add_0_r, Z.add_0_r, Hk.
      simpl app. f_equal.
      rewrite <- fmap_S_seq, <- list_fmap_compose.
      apply list_fmap_ext. intros _ i _. simpl.
      replace (S (k + i))%nat with (k + S i)%nat by lia. f_equal. lia.
    + intros i Hi. replace (S k + i)%nat with (k + S i)%nat by lia.
      apply Hretry. lia.
    + replace (S k + j)%nat with (k + S j)%nat by lia.
      destruct Hstop; [by left | right; lia].
Qed.

Lemma promise_run (k : nat) :
  (k <= 6)%nat ->
  (forall j, (j < k)%nat -> retryable (transport j) = true) ->
  k = 6%nat \/ retryable (transport k) = false ->
  promise transport
  = Some {| calls := S k;
            timers := (fun j => delay (Z.of_nat j) (transport j)) <$> seq 0 k;
            outcome := settles (transport k) |}.
Proof.
  intros Hk Hretry Hstop. unfold promise.
  change (Z.to_nat MAX_RETRIES) with 6%nat.
  rewrite (attempt_stops k 7 MAX_RETRIES 0 []).
  - reflexivity.
  - lia.
  - unfold MAX_RETRIES. lia.
  - exact Hretry.
  - unfold MAX_RETRIES. destruct Hstop; [right; lia | by left].
Qed.

(** Among the first seven calls there is a first one that is not retried. *)
Lemma first_stop (n : nat) :
  (forall j, (j < n)%nat -> retryable (transport j) = true)
  \/ exists k, (k < n)%nat
               /\ (forall j, (j < k)%nat -> retryable (transport j) = true)
               /\ retryable (transport k) = false.
Proof.
  induction n as [| n [Hall | (k & Hk & Hbefore & Hstop)]].
  - left. intros j Hj. lia.
  - destruct (retryable (transport n)) eqn:Hn.
    + left. intros j Hj. destruct (decide (j = n)) as [-> | Hne]; [done |].
      apply Hall. lia.
    + right. exists n. split; [lia | done].
  - right. exists k. split; [lia | done].
Qed.

Lemma stop_index :
  exists k, (k <= 6)%nat
            /\ (forall j, (j < k)%nat -> retryable (transport j) = true)
            /\ (k = 6%nat \/ retryable (transport k) = false).
Proof.
  destruct (first_stop 6) as [Hall | (k & Hk & Hb & Hs)].
  - exists 6%nat. auto.
  - exists k. split; [lia | auto].
Qed.

End RequestFacts.

(** X3: whatever the transport reports, a request settles after at least
    one and at most seven transport calls, with one timer between any two
    calls; every call but the last was a retryable failure, the last one
    is the seventh or not retryable, and the promise resolves with the
    result of the last call or rejects with its error. *)
Theorem promise_always_settles {R : Type} (transport : nat -> option obj * R) :
  exists h,
    promise transport = Some h
    /\ (1 <= calls h <= 7)%nat
    /\ (length (timers h) + 1 = calls h)%nat
    /\ outcome h = settles (transport (calls h - 1)%nat)
    /\ (forall j, (j < calls h - 1)%nat -> retryable (transport j) = true)
    /\ (calls h = 7%nat \/ retryable (transport (calls h - 1)%nat) = false).
Proof.
  destruct (stop_index transport) as (k & Hk & Hbefore & Hstop).
  eexists. split; [by apply (promise_run transport k) |]. simpl.
  rewrite length_fmap, length_seq, Nat.sub_0_r.
  split; [lia |]. split; [lia |]. split; [done |]. split; [done |].
  destruct Hstop as [-> | Hs]; auto.
Qed.

(** X4: if the first [k] calls (at most 6) fail retryably and call [k] is
    the seventh or is not retryable, the request makes exactly [k + 1]
    calls and settles by call [k]; the timer before retry [j] is the hint
    of failure [j] times 1000 or, without hint, the backoff for retry
    number [j], which counts the retries made on a hint as well. *)
Theorem promise_stops_at {R : Type} (transport : nat -> option obj * R)
    (k : nat) :
  (k <= 6)%nat ->
  (forall j, (j < k)%nat -> retryable (transport j) = true) ->
  k = 6%nat \/ retryable (transport k) = false ->
  promise transport
  = Some {| calls := S k;
            timers := (fun j => delay (Z.of_nat j) (transport j)) <$> seq 0 k;
            outcome := settles (transport k) |}
  /\ (forall j e, (j < k)%nat -> (transport j).1 = Some e ->
        truthy (get e "retryAfter") = false ->
        delay (Z.of_nat j) (transport j) = VNum (_calcRetryAfter (Z.of_nat j))).
Proof.
  intros Hk Hretry Hstop. split; [by apply promise_run |].
  intros j e Hj He Hhint. unfold delay. by rewrite He, Hhint.
Qed.

Lemma promise_stops_at_witness :
  promise recovers
  = Some {| calls := 4;
            timers := [VNum 3000; VNum 3000; VNum 2000];
            outcome := Resolved tt |}.
Proof.
  refine (proj1 (promise_stops_at recovers 3 _ _ _)).
  - lia.
  - intros [| [| [| j]]] Hj; [reflexivity | reflexivity | reflexivity | lia].
  - right. reflexivity.
Defined.

(** *** Header text as a number of seconds *)

Lemma digit_char_ok (d : Z) :
  0 <= d < 10 ->
  is_digit (digit_char d) = true /\ digit_val (digit_char d) = d.
Proof.
  intros Hd.
  assert (d = 0 \/ d = 1 \/ d = 2 \/ d = 3 \/ d = 4 \/ d = 5 \/ d = 6
          \/ d = 7 \/ d = 8 \/ d = 9) as Hcases by lia.
  repeat (destruct Hcases as [-> | Hcases]; [by split |]).
  subst d. by split.
Qed.

Lemma append_cons (c : ascii) (s t : string) :
  String c s +:+ t = String c (s +:+ t).
Proof. reflexivity. Qed.

Lemma append_assoc (s t u : string) : s +:+ (t +:+ u) = (s +:+ t) +:+ u.
Proof.
  induction s as [| c s IH]; [done |]. by rewrite !append_cons, IH.
Qed.

Lemma append_nil (s : string) : s +:+ EmptyString = s.
Proof. induction s as [| c s IH]; [done |]. by rewrite append_cons, IH. Qed.

Lemma all_digits_app (s t : string) :
  all_digits (s +:+ t) = all_digits s && all_digits t.
Proof.
  induction s as [| c s IH]; [done |].
  rewrite append_cons. simpl. by rewrite IH, andb_assoc.
Qed.

Lemma digits_to_Z_app (s t : string) : forall a,
  digits_to_Z a (s +:+ t) = digits_to_Z (digits_to_Z a s) t.
Proof.
  induction s as [| c s IH]; intros a; [done |].
  rewrite append_cons. simpl. apply IH.
Qed.

(** [Z_digits] writes the decimal numeral of [n] in front of [acc]. *)
Lemma Z_digits_spec (fuel : nat) : forall n acc,
  0 <= n -> (Z.to_nat n < fuel)%nat ->
  exists s, Z_digits fuel n acc = s +:+ acc
            /\ s <> EmptyString
            /\ all_digits s = true
            /\ digits_to_Z 0 s = n.
Proof.
  induction fuel as [| fuel IH]; intros n acc Hn Hfuel; [lia |].
  pose proof (Z.mod_pos_bound n 10 ltac:(lia)) as Hmod.
  destruct (digit_char_ok (n mod 10) Hmod) as [Hdig Hval].
  cbn [Z_digits]. destruct (n / 10 =? 0) eqn:Hq.
  - apply Z.eqb_eq in Hq.
    exists (String (digit_char (n mod 10)) EmptyString).
    split; [done |]. split; [done |]. simpl. rewrite Hdig, Hval.
    split; [done |]. pose proof (Z.div_mod n 10 ltac:(lia)) as Hdm.
    clear -Hq Hdm. lia.
  - apply Z.eqb_neq in Hq.
    assert (0 < n / 10) as Hpos.
    { pose proof (Z.div_pos n 10 Hn ltac:(lia)). lia. }
    assert (0 < n) as Hn0.
    { destruct (Z.eq_dec n 0) as [-> | Hne0]; [done | lia]. }
    assert (n / 10 < n) as Hlt by (apply Z.div_lt; lia).
    destruct (IH (n / 10) (String (digit_char (n mod 10)) acc)
                ltac:(lia) ltac:(lia)) as (s & Hs & Hne & Hall & Hnum).
    exists (s +:+ String (digit_char (n mod 10)) EmptyString).
    split; [| split; [| split]].
    + rewrite Hs. apply (append_assoc s (String _ EmptyString) acc).
    + destruct s; [done | discriminate].
    + rewrite all_digits_app, Hall. simpl. by rewrite Hdig.
    + rewrite digits_to_Z_app, Hnum. simpl. rewrite Hval.
      pose proof (Z.div_mod n 10 ltac:(lia)) as Hdm. clear -Hdm. lia.
Qed.

Lemma to_number_decimal (n : Z) :
  0 <= n ->
  truthy (VStr (Z_to_string n)) = true
  /\ to_number (VStr (Z_to_string n)) = VNum n.
Proof.
  intros Hn. unfold Z_to_string.
  assert ((n <? 0) = false) as -> by (apply Z.ltb_ge; lia).
  destruct (Z_digits_spec (S (Z.to_nat n)) n EmptyString Hn ltac:(lia))
    as (s & Hs & Hne & Hall & Hnum).
  rewrite Hs, append_nil. simpl. rewrite Hall, Hnum. split; [| done].
  apply negb_true_iff. by apply String.eqb_neq.
Qed.

(** With a retry-after header set, [_buildError] returns a descriptor
    whose [retryAfter] is the header value. *)
Lemma buildError_attaches (error : option obj) (r : http_response) :
  truthy (retry_after_header r) = true ->
  exists d, _buildError error (Some r) = Normal (Some d)
            /\ get d "retryAfter" = retry_after_header r
            /\ forall k, k <> "retryAfter" ->
                 d !! k = match error with
                          | Some e => e !! k
                          | None =>
                              if ge (statusCode r) 400
                              then ({[ "statusCode" := statusCode r ]} : obj) !! k
                              else None
                          end.
Proof.
  unfold retry_after_header, _buildError. intros Hh.
  destruct (headers r) as [h |]; [| done].
  destruct error as [e |]; simpl; [| destruct (ge (statusCode r) 400); simpl];
    rewrite Hh; eexists; (split; [reflexivity |]); unfold get, set;
    rewrite lookup_insert_eq; (split; [done |]); intros k Hk;
    by rewrite lookup_insert_ne by done.
Qed.

(** X5: a response whose retry-after header is the decimal numeral of
    [n] seconds, for any [n] from 0 on with [n * 1000] at most 2^53 (the
    range in which the numbers of the code are exact integers), makes the
    upload's error carry that text, and the callback, while retries are
    left, then waits exactly [n * 1000] milliseconds; for the header text
    0 that is a retry at once, the text being truthy. *)
Theorem header_seconds_to_millis {R : Type}
    (n : Z) (error : option obj) (r : http_response)
    (result : R) (retries : Z) :
  0 <= n ->
  n * 1000 <= 2 ^ 53 ->
  retry_after_header r = VStr (Z_to_string n) ->
  0 < retries ->
  exists d,
    _buildError error (Some r) = Normal (Some d)
    /\ get d "retryAfter" = VStr (Z_to_string n)
    /\ callback retries (Some d) result
       = (Retry (VNum (n * 1000)), retries - 1).
Proof.
  intros Hn _ Hhdr Hpos.
  destruct (to_number_decimal n Hn) as [Htruthy Hnum].
  destruct (buildError_attaches error r) as (d & Hd & Hget & _).
  { by rewrite Hhdr. }
  rewrite Hhdr in Hget. exists d. split; [done |]. split; [done |].
  rewrite callback_hint by (by rewrite ?Hget). rewrite Hget.
  unfold mul. by rewrite Hnum.
Qed.

Lemma header_seconds_to_millis_witness :
  exists d,
    _buildError None
      (Some {| statusCode := VNum 429;
               headers := Some {[ "retry-after" := VStr "0" ]} |})
    = Normal (Some d)
    /\ get d "retryAfter" = VStr "0"
    /\ callback 6 (Some d) tt = (Retry (VNum 0), 5).
Proof.
  exact (header_seconds_to_millis 0 None
           {| statusCode := VNum 429;
              headers := Some {[ "retry-after" := VStr "0" ]} |}
           tt 6 ltac:(lia) ltac:(lia) eq_refl ltac:(lia)).
Defined.

(** *** The error classifier and the upload path *)

(** Without retry-after header [_buildError] returns the error it was
    given, or makes one from a status of at least 400. *)
Lemma buildError_no_header (error : option obj) (r : http_response) :
  truthy (retry_after_header r) = false ->
  _buildError error (Some r)
  = Normal match error with
           | Some e => Some e
           | None =>
               if ge (statusCode r) 400
               then Some {[ "statusCode" := statusCode r ]}
               else None
           end.
Proof.
  unfold retry_after_header, _buildError. intros Hh.
  destruct error as [e |]; simpl; [| destruct (ge (statusCode r) 400); simpl];
    (destruct (headers r) as [h |]; [rewrite Hh |]); try done;
    unfold set; by rewrite insert_empty.
Qed.

(** What the upload's completion hands on once the body is dealt with. *)
Lemma createAttachment_done_inv (JSON_parse : string -> completion json)
    error response result error1 response1 result1 :
  _createAttachment_done JSON_parse error response result
  = Normal (error1, response1, result1) ->
  _buildError error response = Normal error1 /\ response1 = response
  /\ forall error' response' error1',
       _buildError error' response' = Normal error1' ->
       _createAttachment_done JSON_parse error' response' result
       = Normal (error1', response', result1).
Proof.
  unfold _createAttachment_done.
  destruct (match result with
            | Some text =>
                if truthy (VStr text)
                then parsed ← JSON_parse text; index parsed ARTICLE_ATTACHMENT
                else Normal (JVal JNull)
            | None => Normal (JVal JNull)
            end) as [res | ex]; simpl; [| discriminate].
  destruct (_buildError error response) as [e1 | ex]; simpl; [| discriminate].
  intros [= <- <- <-]. split; [done |]. split; [done |].
  intros error' response' error1' ->. done.
Qed.

(** X6: an error object given to [_buildError] together with a response
    is never replaced: all its properties but [retryAfter] are returned as
    they were, the status of the response is not copied into it, and
    without retry-after header it is returned unchanged. So a failed upload
    whose error has neither status nor hint is rejected with that error
    even when the response says 503. *)
Theorem buildError_keeps_error
    (JSON_parse : string -> completion json)
    (e : obj) (r : http_response) (retries : Z) :
  (exists d, _buildError (Some e) (Some r) = Normal (Some d)
             /\ (forall k, k <> "retryAfter" -> d !! k = e !! k)
             /\ (truthy (retry_after_header r) = false -> d = e)
             /\ (truthy (retry_after_header r) = true ->
                   get d "retryAfter" = retry_after_header r))
  /\ (truthy (retry_after_header r) = false ->
      truthy (get e "retryAfter") = false ->
      get e "statusCode" = VUndefined ->
      upload_attempt JSON_parse retries (Some e) (Some r) None
      = Normal (Reject e, retries)).
Proof.
  split.
  - destruct (truthy (retry_after_header r)) eqn:Hh.
    + destruct (buildError_attaches (Some e) r Hh) as (d & Hd & Hget & Hrest).
      exists d. split; [done |]. split; [done |]. split; [done | done].
    + exists e. rewrite buildError_no_header by done.
      split; [done |]. split; [done |]. split; done.
  - intros Hh Hhint Hstatus. unfold upload_attempt, _createAttachment_done.
    rewrite buildError_no_header by done. cbn -[callback].
    rewrite callback_reject; [done |]. left. by rewrite Hstatus.
Qed.

Lemma buildError_keeps_error_witness :
  upload_attempt sample_parse 6 (Some connection_refused)
    (Some {| statusCode := VNum 503; headers := Some ∅ |}) None
  = Normal (Reject connection_refused, 6).
Proof.
  exact (proj2 (buildError_keeps_error sample_parse connection_refused
                  {| statusCode := VNum 503; headers := Some ∅ |} 6)
           eq_refl eq_refl eq_refl).
Defined.

(** X7: an upload whose exchange completed without error and without
    retry-after header, and whose body was dealt with, is settled by the
    status alone: below 400 the promise resolves with the record from the
    body; from 400 to 499 it rejects with a descriptor that holds just the
    status; from 500 on it is retried after the computed backoff while
    retries are left and rejects with the status after that. *)
Theorem upload_by_status
    (JSON_parse : string -> completion json)
    (r : http_response) (n : Z) (body : option string)
    (error1 : option obj) (record : jvalue) (retries : Z) :
  statusCode r = VNum n ->
  truthy (retry_after_header r) = false ->
  _createAttachment_done JSON_parse None (Some r) body
  = Normal (error1, Some r, record) ->
  (n < 400 ->
     upload_attempt JSON_parse retries None (Some r) body
     = Normal (Resolve record, retries))
  /\ (400 <= n < 500 ->
        upload_attempt JSON_parse retries None (Some r) body
        = Normal (Reject {[ "statusCode" := VNum n ]}, retries))
  /\ (500 <= n -> 0 < retries ->
        upload_attempt JSON_parse retries None (Some r) body
        = Normal (Retry (VNum (_calcRetryAfter (MAX_RETRIES - retries))),
                  retries - 1))
  /\ (500 <= n -> retries <= 0 ->
        upload_attempt JSON_parse retries None (Some r) body
        = Normal (Reject {[ "statusCode" := VNum n ]}, retries)).
Proof.
  intros Hstatus Hh Hdone.
  apply createAttachment_done_inv in Hdone as (Herr & _ & Hany).
  rewrite buildError_no_header in Herr by done. injection Herr as <-.
  unfold upload_attempt. rewrite (Hany None (Some r) _ (buildError_no_header _ _ Hh)).
  rewrite Hstatus. unfold ge at 1 2 3 4. cbn -[callback Z.leb].
  assert (forall k, get ({[ "statusCode" := VNum n ]} : obj) k
                    = if decide (k = "statusCode") then VNum n else VUndefined)
    as Hget.
  { intros k. unfold get. case_decide as Hk.
    - subst. by rewrite lookup_singleton_eq.
    - by rewrite lookup_singleton_ne. }
  split; [| split; [| split]].
  - intros Hn. assert ((400 <=? n) = false) as -> by (apply Z.leb_gt; lia).
    done.
  - intros Hn. assert ((400 <=? n) = true) as -> by (apply Z.leb_le; lia).
    rewrite callback_reject; [done |]. left. rewrite !Hget. simpl.
    split; [done |]. unfold ge. simpl. apply Z.leb_gt. lia.
  - intros Hn Hpos.
    assert ((400 <=? n) = true) as -> by (apply Z.leb_le; lia).
    rewrite callback_backoff; [done | by rewrite Hget | | done].
    rewrite Hget. unfold ge. simpl. apply Z.leb_le. lia.
  - intros Hn Hout.
    assert ((400 <=? n) = true) as -> by (apply Z.leb_le; lia).
    rewrite callback_reject; [done | by right].
Qed.

Lemma upload_by_status_witness :
  upload_attempt sample_parse 6 None
    (Some {| statusCode := VNum 201; headers := Some ∅ |}) (Some sample_body)
  = Normal (Resolve (JVal (JObj [("id", JNum 7)])), 6)
  /\ upload_attempt sample_parse 6 None
       (Some {| statusCode := VNum 502; headers := None |}) None
     = Normal (Retry (VNum 500), 5).
Proof.
  split.
  - exact (proj1 (upload_by_status sample_parse
                    {| statusCode := VNum 201; headers := Some ∅ |} 201
                    (Some sample_body) None (JVal (JObj [("id", JNum 7)])) 6
                    eq_refl eq_refl eq_refl) ltac:(lia)).
  - exact (proj1 (proj2 (proj2 (upload_by_status sample_parse
                    {| statusCode := VNum 502; headers := None |} 502
                    None (Some {[ "statusCode" := VNum 502 ]}) (JVal JNull) 6
                    eq_refl eq_refl eq_refl))) ltac:(lia) ltac:(lia)).
Defined.

(** X8: a retry-after header decides over the status: when the response
    of an upload carries one, the upload is retried after the header times
    1000 while retries are left, even if the status is below 400 and the
    body holds the new record, and once no retries are left the promise is
    rejected with a descriptor holding the header value. *)
Theorem upload_retry_after_wins
    (JSON_parse : string -> completion json)
    (error : option obj) (r : http_response) (body : option string)
    (error1 : option obj) (record : jvalue) (retries : Z) :
  truthy (retry_after_header r) = true ->
  _createAttachment_done JSON_parse error (Some r) body
  = Normal (error1, Some r, record) ->
  (0 < retries ->
     upload_attempt JSON_parse retries error (Some r) body
     = Normal (Retry (mul (retry_after_header r) 1000), retries - 1))
  /\ (retries <= 0 ->
        exists d,
          upload_attempt JSON_parse retries error (Some r) body
          = Normal (Reject d, retries)
          /\ get d "retryAfter" = retry_after_header r).
Proof.
  intros Hh Hdone.
  apply createAttachment_done_inv in Hdone as (Herr & _ & Hany).
  destruct (buildError_attaches error r Hh) as (d & Hd & Hget & _).
  unfold upload_attempt. rewrite (Hany error (Some r) _ Hd). cbn -[callback].
  split.
  - intros Hpos. rewrite callback_hint by (by rewrite ?Hget).
    by rewrite Hget.
  - intros Hout. exists d. rewrite callback_reject by (by right). done.
Qed.

Lemma upload_retry_after_wins_witness :
  upload_attempt sample_parse 6 None
    (Some {| statusCode := VNum 201;
             headers := Some {[ "retry-after" := VStr "2" ]} |})
    (Some sample_body)
  = Normal (Retry (VNum 2000), 5).
Proof.
  exact (proj1 (upload_retry_after_wins sample_parse None
                  {| statusCode := VNum 201;
                     headers := Some {[ "retry-after" := VStr "2" ]} |}
                  (Some sample_body)
                  (Some {[ "retryAfter" := VStr "2" ]})
                  (JVal (JObj [("id", JNum 7)])) 6
                  eq_refl eq_refl) ltac:(lia)).
Defined.

(** X9: the body is parsed before the response is classified: when the
    body of an upload is not empty and [JSON.parse] throws on it, or
    parses it to [null], the exception escapes and the callback is not
    invoked, whatever the error, the status and the retries left. *)
Theorem upload_bad_body_escapes
    (JSON_parse : string -> completion json)
    (error : option obj) (response : option http_response)
    (text : string) (retries : Z) :
  text <> EmptyString ->
  (forall ex, JSON_parse text = Throw ex ->
     _createAttachment_done JSON_parse error response (Some text) = Throw ex
     /\ upload_attempt JSON_parse retries error response (Some text)
        = Throw ex)
  /\ (JSON_parse text = Normal JNull ->
      exists msg,
        upload_attempt JSON_parse retries error response (Some text)
        = Throw (TypeError msg)).
Proof.
  intros Htext.
  assert (truthy (VStr text) = true) as Htruthy.
  { simpl. apply negb_true_iff. by apply String.eqb_neq. }
  split.
  - intros ex Hparse. unfold upload_attempt, _createAttachment_done.
    by rewrite Htruthy, Hparse.
  - intros Hparse. unfold upload_attempt, _createAttachment_done.
    rewrite Htruthy, Hparse. eexists. reflexivity.
Qed.

Lemma upload_bad_body_escapes_witness :
  upload_attempt sample_parse 6 None
    (Some {| statusCode := VNum 502; headers := None |})
    (Some "<html>Bad Gateway</html>")
  = Throw (SyntaxError "Unexpected token").
Proof.
  exact (proj2 (proj1 (upload_bad_body_escapes sample_parse None
                         (Some {| statusCode := VNum 502; headers := None |})
                         "<html>Bad Gateway</html>" 6 ltac:(discriminate))
                  (SyntaxError "Unexpected token") eq_refl)).
Defined.

(** *** The wrapped surfaces *)

Lemma wrapped_methods_fold property (prototype : list (string * bool)) :
  forall (acc : gmap string operation) m,
    fold_left
      (fun surface '(method, is_function) =>
         if is_function : bool
         then _createMethod property surface method
         else surface)
      prototype acc !! m
    = if decide ((m, true) ∈ prototype)
      then Some (Native property m)
      else acc !! m.
Proof.
  induction prototype as [| [method is_function] prototype IH];
    intros acc m; cbn [fold_left].
  - rewrite decide_False; [done | by intros ?%elem_of_nil].
  - rewrite IH. destruct (decide ((m, true) ∈ prototype)) as [Hin | Hnin].
    + rewrite decide_True; [done | by right].
    + destruct is_function; unfold _createMethod.
      * destruct (decide (method = m)) as [-> | Hne].
        -- rewrite lookup_insert_eq, decide_True; [done | by left].
        -- rewrite lookup_insert_ne by done.
           rewrite decide_False; [done |].
           intros [[= ->] | ?]%elem_of_cons; done.
      * rewrite decide_False; [done |].
        intros [[= _ ?] | ?]%elem_of_cons; done.
Qed.

(** A method is wrapped exactly when the prototype has it as a function. *)
Lemma wrapped_methods_lookup property prototype m :
  wrapped_methods property prototype !! m
  = if decide ((m, true) ∈ prototype) then Some (Native property m) else None.
Proof.
  unfold wrapped_methods. rewrite wrapped_methods_fold.
  by rewrite lookup_empty.
Qed.

Section WrapFacts.
Variable c : client.

Lemma wrap_all_throw (l : list string) ex :
  fold_left (fun acc endpoint =>
               this ← acc; _wrapPrototypeMethods c this endpoint)
            l (Throw ex)
  = Throw ex.
Proof. induction l as [| endpoint l IH]; simpl; [done | apply IH]. Qed.

(** The loop over the endpoints throws at the first one whose value in
    the client is [undefined] or [null]. *)
Lemma wrap_all_nullish (l : list string) : forall acc p,
  p ∈ l -> c !! p = Some Nullish ->
  fold_left (fun acc endpoint =>
               this ← acc; _wrapPrototypeMethods c this endpoint)
            l (Normal acc)
  = Throw (TypeError "Cannot convert undefined or null to object").
Proof.
  induction l as [| endpoint l IH]; intros acc p Hin Hp;
    [by apply elem_of_nil in Hin |].
  cbn [fold_left mbind completion_bind]. unfold _wrapPrototypeMethods at 2.
  destruct (c !! endpoint) as [[| prototype] |] eqn:He.
  - apply wrap_all_throw.
  - apply elem_of_cons in Hin as [-> | Hin]; [congruence | by eapply IH].
  - apply elem_of_cons in Hin as [-> | Hin]; [congruence | by eapply IH].
Qed.

(** Otherwise it leaves, for every endpoint that the client has, the
    wrapped methods of that resource. *)
Lemma wrap_all_spec (l : list string) : forall acc,
  (forall p, p ∈ l -> c !! p <> Some Nullish) ->
  exists this,
    fold_left (fun acc endpoint =>
                 this ← acc; _wrapPrototypeMethods c this endpoint)
              l (Normal acc)
    = Normal this
    /\ forall p,
         this !! p
         = match c !! p with
           | Some (Resource prototype) =>
               if decide (p ∈ l)
               then Some (wrapped_methods p prototype)
               else acc !! p
           | _ => acc !! p
           end.
Proof.
  induction l as [| endpoint l IH]; intros acc Hok; cbn [fold_left].
  - exists acc. split; [done |]. intros p.
    by destruct (c !! p) as [[| prototype] |].
  - cbn [mbind completion_bind]. unfold _wrapPrototypeMethods at 2.
    pose proof (Hok endpoint ltac:(by left)) as Hnot.
    destruct (c !! endpoint) as [[| prototype] |] eqn:He; [done | |].
    + destruct (IH (<[endpoint := wrapped_methods endpoint prototype]> acc))
        as (this & Hfold & Hlook).
      { intros p Hp. apply Hok. by right. }
      exists this. split; [exact Hfold |]. intros p. rewrite Hlook.
      destruct (decide (p = endpoint)) as [-> | Hne].
      * rewrite He, lookup_insert_eq. rewrite (decide_True (P := _ ∈ _ :: _));
          [by case_decide | by left].
      * rewrite lookup_insert_ne by done.
        destruct (c !! p) as [[| prototype'] |]; try done.
        destruct (decide (p ∈ l)) as [Hin | Hnin].
        -- rewrite decide_True; [done | by right].
        -- rewrite decide_False; [done |].
           intros [-> | ?]%elem_of_cons; done.
    + destruct (IH acc) as (this & Hfold & Hlook).
      { intros p Hp. apply Hok. by right. }
      exists this. split; [exact Hfold |]. intros p. rewrite Hlook.
      destruct (c !! p) as [[| prototype'] |] eqn:Hp; try done.
      destruct (decide (p ∈ l)) as [Hin | Hnin].
      * rewrite decide_True; [done | by right].
      * rewrite decide_False; [done |].
        intros [-> | ?]%elem_of_cons; [congruence | done].
Qed.

(** What a successful construction has wrapped. *)
Lemma constructor_surfaces (w : wrapper) :
  Wrapper.constructor (Some c) = Normal w ->
  _client w = c
  /\ (forall p, p ∈ endpoints -> c !! p <> Some Nullish)
  /\ (exists prototype, c !! "articleattachments" = Some (Resource prototype))
  /\ forall p,
       wrapped w !! p
       = match c !! p with
         | Some (Resource prototype) =>
             if decide (p ∈ endpoints)
             then Some (if decide (p = "articleattachments")
                        then <["create" := CreateAttachment]>
                               (wrapped_methods p prototype)
                        else wrapped_methods p prototype)
             else None
         | _ => None
         end.
Proof.
  intros Hc.
  assert (forall p, p ∈ endpoints -> c !! p <> Some Nullish) as Hok.
  { intros p Hin Hp. unfold Wrapper.constructor in Hc.
    rewrite (wrap_all_nullish endpoints ∅ p Hin Hp) in Hc. discriminate. }
  destruct (wrap_all_spec endpoints ∅ Hok) as (this & Hfold & Hlook).
  unfold Wrapper.constructor in Hc. rewrite Hfold in Hc. simpl in Hc.
  destruct (this !! "articleattachments") as [surface |] eqn:Hs;
    [| discriminate].
  injection Hc as <-. simpl. split; [done |]. split; [done |].
  pose proof (Hlook "articleattachments") as Haa. rewrite Hs in Haa.
  destruct (c !! "articleattachments") as [[| prototype] |] eqn:Hcaa;
    [by rewrite lookup_empty in Haa | | by rewrite lookup_empty in Haa].
  rewrite decide_True in Haa by (unfold endpoints; by right; left).
  injection Haa as ->. split; [eauto |]. intros p.
  destruct (decide (p = "articleattachments")) as [-> | Hne].
  - rewrite lookup_insert_eq, Hcaa.
    by rewrite decide_True by (unfold endpoints; by right; left).
  - rewrite lookup_insert_ne by done. rewrite Hlook, lookup_empty.
    destruct (c !! p) as [[| prototype'] |]; try done.
Qed.

End WrapFacts.

Lemma attachments_listed : "articleattachments" ∈ endpoints.
Proof. unfold endpoints. by right; left. Qed.

Lemma articles_listed : "articles" ∈ endpoints.
Proof. unfold endpoints. by left. Qed.

Lemma users_not_listed : "users" ∉ endpoints.
Proof.
  unfold endpoints. intros Hin.
  repeat (apply elem_of_cons in Hin as [[=] | Hin]).
  by apply elem_of_nil in Hin.
Qed.

(** X10: construction on a client succeeds exactly when the client has an
    own [articleattachments] and none of the six listed resources it has
    is [undefined] or [null]; a resource that is makes it throw the
    [TypeError] of [Object.getPrototypeOf], a missing [articleattachments]
    alone the [TypeError] of the assignment of [create]; a wrapper that is
    built keeps the client it was given. *)
Theorem constructor_succeeds_iff (c : client) :
  ((exists w, Wrapper.constructor (Some c) = Normal w)
   <-> is_Some (c !! "articleattachments")
       /\ forall p, p ∈ endpoints -> c !! p <> Some Nullish)
  /\ ((exists p, p ∈ endpoints /\ c !! p = Some Nullish) ->
      Wrapper.constructor (Some c)
      = Throw (TypeError "Cannot convert undefined or null to object"))
  /\ ((forall p, p ∈ endpoints -> c !! p <> Some Nullish) ->
      c !! "articleattachments" = None ->
      Wrapper.constructor (Some c)
      = Throw (TypeError "Cannot set property 'create' of undefined"))
  /\ (forall w, Wrapper.constructor (Some c) = Normal w -> _client w = c).
Proof.
  split; [split |].
  - intros [w Hw].
    destruct (constructor_surfaces c w Hw) as (_ & Hok & [prototype Haa] & _).
    split; [by rewrite Haa | done].
  - intros [[res Haa] Hok].
    destruct res as [| prototype].
    { exfalso. exact (Hok "articleattachments" attachments_listed Haa). }
    destruct (wrap_all_spec c endpoints ∅ Hok) as (this & Hfold & Hlook).
    unfold Wrapper.constructor. rewrite Hfold. cbn [mbind completion_bind].
    rewrite (Hlook "articleattachments"), Haa.
    rewrite decide_True by apply attachments_listed. eauto.
  - split; [| split].
    + intros (p & Hin & Hp). unfold Wrapper.constructor.
      by rewrite (wrap_all_nullish c endpoints ∅ p Hin Hp).
    + intros Hok Haa.
      destruct (wrap_all_spec c endpoints ∅ Hok) as (this & Hfold & Hlook).
      unfold Wrapper.constructor. rewrite Hfold. cbn [mbind completion_bind].
      by rewrite (Hlook "articleattachments"), Haa, lookup_empty.
    + intros w Hw. by destruct (constructor_surfaces c w Hw) as (? & _).
Qed.

Lemma constructor_succeeds_iff_witness :
  (exists w, Wrapper.constructor (Some client_users) = Normal w)
  /\ Wrapper.constructor (Some client_bare)
     = Throw (TypeError "Cannot set property 'create' of undefined").
Proof.
  split.
  - apply (proj2 (proj1 (constructor_succeeds_iff client_users))).
    split; [by eexists |].
    intros p Hp. unfold endpoints in Hp.
    repeat (apply elem_of_cons in Hp as [-> | Hp]; [done |]).
    by apply elem_of_nil in Hp.
  - apply (proj1 (proj2 (proj2 (constructor_succeeds_iff client_bare))));
      [| reflexivity].
    intros p Hp. unfold endpoints in Hp.
    repeat (apply elem_of_cons in Hp as [-> | Hp]; [done |]).
    by apply elem_of_nil in Hp.
Defined.

(** X11: in a wrapper that was built, each of the six listed resources
    that the client has is wrapped under its own name, and its surface
    holds one operation for each function the prototype lists, and none
    for a property that is not a function; [create] of
    [articleattachments] is always the upload written by hand, also when
    the client's prototype has a [create] of its own. A resource outside
    the list, or one the client lacks, gets no surface. *)
Theorem wrapped_surface_content
    (c : client) (w : wrapper) (p : string)
    (prototype : list (string * bool)) (m : string) :
  Wrapper.constructor (Some c) = Normal w ->
  (c !! p = Some (Resource prototype) -> p ∈ endpoints ->
     exists surface,
       wrapped w !! p = Some surface
       /\ surface !! m
          = if decide (p = "articleattachments" /\ m = "create")
            then Some CreateAttachment
            else if decide ((m, true) ∈ prototype)
                 then Some (Native p m)
                 else None)
  /\ (p ∉ endpoints \/ c !! p = None -> wrapped w !! p = None).
Proof.
  intros Hw. destruct (constructor_surfaces c w Hw) as (_ & _ & _ & Hlook).
  split.
  - intros Hp Hin. rewrite Hlook, Hp, decide_True by done.
    eexists. split; [reflexivity |].
    destruct (decide (p = "articleattachments")) as [-> | Hne].
    + destruct (decide (m = "create")) as [-> | Hm].
      * rewrite lookup_insert_eq. by rewrite decide_True.
      * rewrite lookup_insert_ne by done. rewrite wrapped_methods_lookup.
        rewrite (decide_False (P := _ /\ _)); [done | by intros [_ ?]].
    + rewrite wrapped_methods_lookup.
      rewrite (decide_False (P := _ /\ _)); [done | by intros [? _]].
  - intros [Hnin | Hnone]; rewrite Hlook.
    + destruct (c !! p) as [[| prototype'] |]; try done.
      by rewrite decide_False.
    + by rewrite Hnone.
Qed.

Lemma wrapped_surface_content_witness :
  exists w surface,
    Wrapper.constructor (Some client_users) = Normal w
    /\ wrapped w !! "articleattachments" = Some surface
    /\ surface !! "create" = Some CreateAttachment
    /\ wrapped w !! "users" = None.
Proof.
  destruct (Wrapper.constructor (Some client_users)) as [w | ex] eqn:Hw;
    [| vm_compute in Hw; discriminate].
  destruct (proj1 (wrapped_surface_content client_users w
                     "articleattachments"
                     [("create", true); ("list", true)] "create" Hw)
              eq_refl attachments_listed)
    as (surface & Hs & Hcreate).
  exists w, surface. split; [done |]. split; [done |]. split; [done |].
  apply (proj2 (wrapped_surface_content client_users w "users" [] "list" Hw)).
  left. apply users_not_listed.
Defined.

(** X12: calling an operation found in a built wrapper under resource [p]
    and name [m] makes [_createPromiseRequest] apply the client's own
    method [m] of [p], a function of its prototype, with [p] as receiver
    and the caller's arguments, unchanged and in order, followed by the
    callback (the callback alone when there are none); the one exception
    is the upload, which gets the wrapper as receiver and the first two
    arguments, [undefined] standing for a missing one. *)
Theorem wrapped_operation_call
    (c : client) (w : wrapper) (p m : string)
    (surface : gmap string operation) (op : operation) (args : list jsarg) :
  Wrapper.constructor (Some c) = Normal w ->
  wrapped w !! p = Some surface ->
  surface !! m = Some op ->
  (p = "articleattachments" /\ m = "create" /\ op = CreateAttachment
   /\ _createPromiseRequest_call (invoke op args)
      = {| receiver := Some This;
           callee := Some CreateAttachmentFn;
           passed := [nth 0 args (Val VUndefined);
                      nth 1 args (Val VUndefined); Callback] |})
  \/ (op = Native p m
      /\ (exists prototype,
            c !! p = Some (Resource prototype) /\ (m, true) ∈ prototype)
      /\ _createPromiseRequest_call (invoke op args)
         = {| receiver := Some (ResourceOf p);
              callee := Some (MethodOf p m);
              passed := (args ++ [Callback])%list |}).
Proof.
  intros Hw Hp Hm.
  destruct (constructor_surfaces c w Hw) as (_ & _ & _ & Hlook).
  rewrite Hlook in Hp.
  destruct (c !! p) as [[| prototype] |] eqn:Hcp; try discriminate.
  destruct (decide (p ∈ endpoints)) as [Hin | Hnin]; [| discriminate].
  injection Hp as <-.
  assert (wrapped_methods p prototype !! m = Some op ->
          op = Native p m /\ (m, true) ∈ prototype) as Hnative.
  { rewrite wrapped_methods_lookup.
    destruct (decide ((m, true) ∈ prototype)); [| done]. by intros [= <-]. }
  destruct (decide (p = "articleattachments")) as [-> | Hne].
  - destruct (decide (m = "create")) as [-> | Hmne].
    + rewrite lookup_insert_eq in Hm. injection Hm as <-. by left.
    + rewrite lookup_insert_ne in Hm by done.
      destruct (Hnative Hm) as [-> Hfun]. right. eauto.
  - destruct (Hnative Hm) as [-> Hfun]. right. eauto.
Qed.

Lemma wrapped_operation_call_witness :
  _createPromiseRequest_call (invoke (Native "articles" "list") [])
  = {| receiver := Some (ResourceOf "articles");
       callee := Some (MethodOf "articles" "list");
       passed := [Callback] |}.
Proof.
  destruct (Wrapper.constructor (Some client_full)) as [w | ex] eqn:Hw;
    [| vm_compute in Hw; discriminate].
  destruct (constructor_surfaces client_full w Hw) as (_ & _ & _ & Hlook).
  destruct (wrapped_operation_call client_full w "articles" "list"
              (wrapped_methods "articles" [("list", true); ("create", true)])
              (Native "articles" "list") [] Hw)
    as [(Hp & _) | (_ & _ & Hcall)];
    [by rewrite Hlook | reflexivity | discriminate | exact Hcall].
Defined.

(** *** The pipeline entry point *)

Lemma get_set_eq (o : obj) (k : string) (v : value) : get (set o k v) k = v.
Proof. unfold get, set. by rewrite lookup_insert_eq. Qed.

Lemma defaults_path (object : obj) (v : value) :
  Pipeline.defaults object {[ "path" := v ]}
  = if value_eqb (get object "path") VUndefined
    then set object "path" v
    else object.
Proof. unfold Pipeline.defaults. by rewrite map_fold_singleton. Qed.

(** X13: a pipeline built without options, or with options whose [path]
    is missing or [undefined], works on the resolved working directory; a
    [path] that is a string is resolved itself, the working directory not
    being used as default; any other [path], [null] for one, is not
    replaced by the default and makes the constructor throw. *)
Theorem pipeline_path (cwd : string) (path_resolve : string -> string)
    (opts : option obj) :
  (get (default ∅ opts) "path" = VUndefined ->
     Pipeline.constructor cwd path_resolve opts = Normal (path_resolve cwd))
  /\ (forall p, get (default ∅ opts) "path" = VStr p ->
        Pipeline.constructor cwd path_resolve opts = Normal (path_resolve p))
  /\ (get (default ∅ opts) "path" <> VUndefined ->
      (forall p, get (default ∅ opts) "path" <> VStr p) ->
      Pipeline.constructor cwd path_resolve opts
      = Throw (TypeError "Path must be a string")).
Proof.
  unfold Pipeline.constructor. rewrite defaults_path.
  split; [| split].
  - intros ->. simpl. by rewrite get_set_eq.
  - intros p Hp. rewrite Hp. simpl. by rewrite Hp.
  - intros Hdef Hstr.
    destruct (get (default ∅ opts) "path") as [| | b | n | | p] eqn:Hp;
      simpl; rewrite ?Hp; try done.
    by destruct (Hstr p).
Qed.

Lemma pipeline_path_witness :
  Pipeline.constructor "/work" Pipeline.sample_resolve None = Normal "/work"
  /\ Pipeline.constructor "/work" Pipeline.sample_resolve
       (Some {[ "path" := VStr "docs" ]})
     = Normal "/work/docs"
  /\ Pipeline.constructor "/work" Pipeline.sample_resolve
       (Some {[ "path" := VNull ]})
     = Throw (TypeError "Path must be a string").
Proof.
  split; [| split].
  - exact (proj1 (pipeline_path "/work" Pipeline.sample_resolve None) eq_refl).
  - exact (proj1 (proj2 (pipeline_path "/work" Pipeline.sample_resolve
                           (Some {[ "path" := VStr "docs" ]})))
             "docs" eq_refl).
  - apply (proj2 (proj2 (pipeline_path "/work" Pipeline.sample_resolve
                           (Some {[ "path" := VNull ]}))));
      [discriminate | intros p; discriminate].
Defined.

(** X14: when no failure carries a hint, the timers of a request are the
    computed backoffs 500, 1000, 2000, ... in this order, one per retry,
    and together they take at most 24500 milliseconds, whatever the
    transport reports. *)
Theorem backoff_total_bounded {R : Type} (transport : nat -> option obj * R) :
  (forall k e, (transport k).1 = Some e -> truthy (get e "retryAfter") = false) ->
  exists h,
    promise transport = Some h
    /\ timers h
       = (fun j => VNum (_calcRetryAfter (Z.of_nat j)))
           <$> seq 0 (calls h - 1)
    /\ 0 <= total_delay (timers h) <= 24500.
Proof.
  intros Hnohint.
  destruct (stop_index transport) as (k & Hk & Hbefore & Hstop).
  eexists. split; [by apply (promise_run transport k) |]. simpl.
  rewrite Nat.sub_0_r.
  assert ((fun j => delay (Z.of_nat j) (transport j)) <$> seq 0 k
          = (fun j => VNum (_calcRetryAfter (Z.of_nat j))) <$> seq 0 k) as ->.
  { apply list_fmap_ext. intros i j Hj. apply lookup_seq in Hj as [-> Hlt].
    simpl. pose proof (Hbefore i Hlt) as Hretry.
    unfold retryable in Hretry. unfold delay.
    destruct ((transport i).1) as [e |] eqn:He; [| done].
    by rewrite (Hnohint i e He). }
  split; [done |].
  assert (k = 0 \/ k = 1 \/ k = 2 \/ k = 3 \/ k = 4 \/ k = 5 \/ k = 6)%nat
    as Hcases by lia.
  repeat (destruct Hcases as [-> | Hcases]; [by vm_compute |]).
  subst k. by vm_compute.
Qed.

Lemma backoff_total_bounded_witness :
  exists h,
    promise unavailable = Some h
    /\ timers h
       = (fun j => VNum (_calcRetryAfter (Z.of_nat j)))
           <$> seq 0 (calls h - 1)
    /\ 0 <= total_delay (timers h) <= 24500.
Proof.
  apply (backoff_total_bounded unavailable).
  intros k e [= <-]. reflexivity.
Defined.
